(** * djcontroller.js: the Mixxx mapping engine ([src/mapping/mixxx.ts])

    A shallow embedding of the mapping parser, the deck resolver, the MIDI
    decoder ([fromMidi]) and the MIDI encoder ([toMidi]), followed by the
    properties of the specification that concern them.

    JavaScript values are modelled as follows.
    - A [string] is a sequence of code units below 256 ([ascii]).
    - A [number] is [NaN], an infinity or an integer [Num z].  Every number
      the engine computes comes out of [parseInt] or out of a MIDI byte, so
      no fraction occurs.  A double holds an integer exactly only if 53
      significant bits suffice: [to_double] rounds an integer as the
      conversion to a Number does (to nearest, ties to even, [Infinity]
      from 2^1024 on), [parseInt] ends with it, and only integers it leaves
      alone are values.  Negative zero is identified with zero (they are
      [===]).
    - [undefined] and [null] are [None]; reading a property of either throws,
      which is the [Throw TypeError] of the [Completion] monad.
    - An object used as a dictionary is a [gmap string _].

    Of the repository only [src/mapping/mixxx.ts] is at hand.  The helper
    [xmlToObject] of [src/utils.ts] is taken as a parameter (the class
    [Flattener]) constrained by what spec 4.1 says of it, and the document
    parser [parseXml], an external package, as a function argument. *)

From Stdlib Require Import ZArith Ascii String List Lia.
From stdpp Require Import base option list strings gmap.

Local Open Scope string_scope.
Local Open Scope list_scope.
Local Open Scope Z_scope.

(** ** Numbers *)

Inductive number : Type :=
| NaN
| Num (z : Z)
| Infinity (negative : bool).

(** The integer [m >= 0] kept to 53 significant bits: the bits below them
    are rounded off, to the nearest multiple and to the even one on a tie. *)
Definition round_to_53_bits (m : Z) : Z :=
  let e := Z.log2 m - 52 in
  if e <=? 0 then m
  else
    let q := Z.shiftr m e in
    let r := Z.land m (Z.ones e) in
    let half := Z.shiftl 1 (e - 1) in
    let q' := if (half <? r) || ((r =? half) && Z.odd q) then q + 1 else q in
    Z.shiftl q' e.

(** The Number value of the integer [z] (ECMAScript 6.1.6.1): [z] rounded
    to a double, an infinity when the rounded magnitude reaches 2^1024. *)
Definition to_double (z : Z) : number :=
  let m := round_to_53_bits (Z.abs z) in
  if 2 ^ 1024 <=? m then Infinity (z <? 0) else Num (Z.sgn z * m).

(** The numbers that are values: [NaN], the infinities and the integers a
    double holds exactly. *)
Definition representable (a : number) : Prop :=
  match a with
  | Num z => to_double z = Num z
  | _ => True
  end.

(** [a === b] on numbers: [NaN] is equal to nothing, itself included. *)
Definition strict_eq (a b : number) : bool :=
  match a, b with
  | Num x, Num y => Z.eqb x y
  | Infinity s, Infinity s' => Bool.eqb s s'
  | _, _ => false
  end.

(** [a === b] where [b] may be [undefined] (an array read out of range). *)
Definition strict_eq_undef (a : number) (b : option number) : bool :=
  match b with
  | Some b' => strict_eq a b'
  | None => false
  end.

(** [a > 0] where [a] may be [undefined]: [undefined] converts to [NaN], and
    every comparison with [NaN] is false. *)
Definition gt_zero (a : option number) : bool :=
  match a with
  | Some (Num z) => Z.ltb 0 z
  | Some (Infinity negative) => negb negative
  | _ => false
  end.

(** ** Exceptions *)

Inductive JsError : Type :=
| TypeError
| XmlError (message : string).

Inductive Completion (A : Type) : Type :=
| Return (a : A)
| Throw (e : JsError).

Arguments Return {A} a.
Arguments Throw {A} e.

Definition bind {A B : Type} (c : Completion A) (k : A -> Completion B)
  : Completion B :=
  match c with
  | Return a => k a
  | Throw e => Throw e
  end.

Notation "'let*' x ':=' c 'in' k" := (bind c (fun x => k))
  (at level 10, x name, c at level 100, k at level 200).

(** [o.p] where [o] may be [undefined] or [null]. *)
Definition prop {A B : Type} (o : option A) (p : A -> B) : Completion B :=
  match o with
  | Some a => Return (p a)
  | None => Throw TypeError
  end.

(** [xs.flatMap(f)] for a callback that may throw: the elements are visited
    in order and the first exception ends the traversal. *)
Fixpoint flatMap {A B : Type} (f : A -> Completion (list B)) (xs : list A)
  : Completion (list B) :=
  match xs with
  | [] => Return []
  | x :: xs' =>
      let* ys := f x in
      let* rest := flatMap f xs' in
      Return (ys ++ rest)
  end.

(** ** Strings: white space, [trim], [parseInt] *)

Definition code (c : ascii) : Z := Z.of_N (N_of_ascii c).

(** White space and line terminators among the code units below 256:
    TAB, LF, VT, FF, CR, SP and NBSP. *)
Definition is_whitespace (c : ascii) : bool :=
  let n := code c in
  ((9 <=? n) && (n <=? 13)) || (n =? 32) || (n =? 160).

Fixpoint trimStart (s : string) : string :=
  match s with
  | EmptyString => EmptyString
  | String c s' => if is_whitespace c then trimStart s' else s
  end.

Definition is_empty (s : string) : bool :=
  match s with
  | EmptyString => true
  | String _ _ => false
  end.

Fixpoint trimEnd (s : string) : string :=
  match s with
  | EmptyString => EmptyString
  | String c s' =>
      let r := trimEnd s' in
      if is_whitespace c && is_empty r then EmptyString else String c r
  end.

Definition trim (s : string) : string := trimEnd (trimStart s).

(** The value of a digit in bases up to 36, as [parseInt] reads it. *)
Definition digit_value (c : ascii) : option Z :=
  let n := code c in
  if (48 <=? n) && (n <=? 57) then Some (n - 48)
  else if (97 <=? n) && (n <=? 122) then Some (n - 87)
  else if (65 <=? n) && (n <=? 90) then Some (n - 55)
  else None.

Definition radix_digit (R : Z) (c : ascii) : option Z :=
  match digit_value c with
  | Some d => if d <? R then Some d else None
  | None => None
  end.

(** The longest prefix of radix-[R] digits, read as an integer; [acc] is
    [None] until a first digit has been seen. *)
Fixpoint parse_digits (R : Z) (s : string) (acc : option Z) : option Z :=
  match s with
  | EmptyString => acc
  | String c s' =>
      match radix_digit R c with
      | Some d => parse_digits R s' (Some (R * default 0 acc + d))
      | None => acc
      end
  end.

(** The sign and the base prefix that [parseInt] strips. *)
Definition strip_sign (s : string) : Z * string :=
  match s with
  | String c r =>
      if Ascii.eqb c "-" then (-1, r)
      else if Ascii.eqb c "+" then (1, r)
      else (1, s)
  | EmptyString => (1, s)
  end.

Definition strip_prefix (s : string) : Z * string :=
  match s with
  | String c (String x r) =>
      if Ascii.eqb c "0" && (Ascii.eqb x "x" || Ascii.eqb x "X") then (16, r)
      else (10, s)
  | _ => (10, s)
  end.

(** [parseInt(s)] with no radix argument (ECMAScript 19.2.5): leading white
    space is skipped, a sign is read, a [0x]/[0X] prefix selects base 16,
    and the longest prefix of digits is converted; no digit gives [NaN].
    The result is the Number value of the integer read, so it is rounded
    to a double.  (Past 20 significant decimal digits the standard lets an
    implementation drop the digits that follow; the engines in use round
    the whole integer, as is done here.) *)
Definition parseInt (s : string) : number :=
  let '(sign, s') := strip_sign (trimStart s) in
  let '(R, digits) := strip_prefix s' in
  match parse_digits R digits None with
  | Some m => to_double (sign * m)
  | None => NaN
  end.

(** ** Regular expressions

    The fragment of the regular expression syntax that [deckFromGroup] uses:
    a sequence of single-character atoms, greedy [+] on an atom, and one
    capturing group. *)

Inductive atom : Type :=
| AChar (c : ascii)   (* a literal character, escaped or not *)
| ADigit.             (* \d *)

Inductive node : Type :=
| One (a : atom)
| Plus (a : atom)     (* a+ , greedy *)
| GroupOpen           (* ( *)
| GroupClose.         (* ) *)

Definition regex : Type := list node.

Definition is_digit (c : ascii) : bool :=
  let n := code c in (48 <=? n) && (n <=? 57).

Definition accepts (a : atom) (c : ascii) : bool :=
  match a with
  | AChar c' => Ascii.eqb c' c
  | ADigit => is_digit c
  end.

(** What group 1 has captured so far. *)
Inductive capture : Type :=
| Unset
| Open (acc : string)
| Closed (text : string).

Definition push (cap : capture) (c : ascii) : capture :=
  match cap with
  | Open acc => Open (acc +:+ String c EmptyString)
  | _ => cap
  end.

Definition close (cap : capture) : capture :=
  match cap with
  | Open acc => Closed acc
  | _ => cap
  end.

(** [match[1]]: [undefined] unless the group took part in the match. *)
Definition group1 (cap : capture) : option string :=
  match cap with
  | Closed text => Some text
  | _ => None
  end.

(** A backtracking matcher anchored at the start of [s].  [Plus a] consumes
    as many characters as [a] accepts and gives them back one at a time
    while the rest of the expression fails. *)
Fixpoint match_here (re : regex) (cap : capture) (s : string)
  : option capture :=
  match re with
  | [] => Some cap
  | One a :: re' =>
      match s with
      | String c s' =>
          if accepts a c then match_here re' (push cap c) s' else None
      | EmptyString => None
      end
  | GroupOpen :: re' => match_here re' (Open EmptyString) s
  | GroupClose :: re' => match_here re' (close cap) s
  | Plus a :: re' =>
      (fix greedy (cap : capture) (s : string) {struct s} : option capture :=
         match s with
         | String c s' =>
             if accepts a c then
               match greedy (push cap c) s' with
               | Some r => Some r
               | None => match_here re' (push cap c) s'
               end
             else None
         | EmptyString => None
         end) cap s
  end.

(** [re.exec(s)] for a regular expression without flags: the leftmost
    position at which the expression matches.  Of the resulting array only
    the captured group is kept, the one entry the engine reads. *)
Fixpoint exec (re : regex) (s : string) : option capture :=
  match match_here re Unset s with
  | Some cap => Some cap
  | None =>
      match s with
      | String _ s' => exec re s'
      | EmptyString => None
      end
  end.

(** [/\[Channel(\d+)\]/] *)
Definition channel_regex : regex :=
  [ One (AChar "["); One (AChar "C"); One (AChar "h"); One (AChar "a");
    One (AChar "n"); One (AChar "n"); One (AChar "e"); One (AChar "l");
    GroupOpen; Plus ADigit; GroupClose; One (AChar "]") ].

(** The end of [channel_regex], from the group on. *)
Definition digits_tail : regex := [Plus ADigit; GroupClose; One (AChar "]")].

(** ** Deck resolution *)

Definition deckFromGroup (group : string) : option number :=
  match exec channel_regex group with
  | Some m =>
      Some (match group1 m with
            | Some text => parseInt text
            | None => NaN
            end)
  | None => None
  end.

#[local] Set Warnings "-register-all".

(** ** The element tree ([@rgrove/parse-xml])

    The document parser is an external package; the engine reads three
    things off its nodes: whether a node is an element, an element's [name]
    and [children], and an element's text. *)

Inductive XmlNode : Type :=
| XmlText (content : string)
| XmlCdata (content : string)
| XmlComment (content : string)
| XmlElementNode (tag : string) (nodes : list XmlNode).

Record XmlElement : Type := {
  name : string;
  children : list XmlNode;
}.

Record XmlDocument : Type := {
  doc_children : list XmlNode;
}.

(** The type guard [isXmlElement(node)], with the narrowed value. *)
Definition isXmlElement (node : XmlNode) : option XmlElement :=
  match node with
  | XmlElementNode tag nodes => Some {| name := tag; children := nodes |}
  | _ => None
  end.

(** [document.root]: the first element among the document's children, or
    [null]. *)
Fixpoint first_element (nodes : list XmlNode) : option XmlElement :=
  match nodes with
  | [] => None
  | n :: nodes' =>
      match isXmlElement n with
      | Some e => Some e
      | None => first_element nodes'
      end
  end.

Definition root (doc : XmlDocument) : option XmlElement :=
  first_element (doc_children doc).

(** The text of a node and of all its descendants, in document order. *)
Fixpoint node_text (n : XmlNode) : string :=
  match n with
  | XmlText t => t
  | XmlCdata t => t
  | XmlComment _ => EmptyString
  | XmlElementNode _ nodes =>
      (fix all (ns : list XmlNode) : string :=
         match ns with
         | [] => EmptyString
         | n' :: ns' => node_text n' +:+ all ns'
         end) nodes
  end.

Definition text_content (nodes : list XmlNode) : string :=
  foldr (fun n acc => node_text n +:+ acc) EmptyString nodes.

(** Modelled from the spec: the [text] of the element view that
    [xmlToObject] of [src/utils.ts] hands out (spec 4.1): "a view exposing
    that element's trimmed text content and its own children".  The view of
    an element is the element itself, read through [text] and [children]. *)
Definition text (e : XmlElement) : string := trim (text_content (children e)).

(** The call sites of [xmlToObject] pass an element, whose children are then
    flattened, or (for the [controller] element) the child sequence itself. *)
Inductive XmlSource : Type :=
| FromElement (e : XmlElement)
| FromChildren (nodes : list XmlNode).

Definition source_nodes (x : XmlSource) : list XmlNode :=
  match x with
  | FromElement e => children e
  | FromChildren nodes => nodes
  end.

(** [nodes.flatMap(c => isXmlElement(c) ? [c] : [])]: the elements among a
    sequence of nodes, in document order, and their tag names. *)
Definition elements (nodes : list XmlNode) : list XmlElement :=
  omap isXmlElement nodes.

Definition element_names (nodes : list XmlNode) : list string :=
  mjoin ((fun c => match isXmlElement c with
                   | Some e => [name e]
                   | None => []
                   end) <$> nodes).

(** Modelled from the spec: [xmlToObject] of [src/utils.ts] (spec 4.1), "a
    mapping from tag name to a view" of the element of that name among the
    nodes given.  Its keys are the tag names of the elements in the sequence,
    and the value under a key is an element of the sequence with that name.
    Which one, when a name is repeated, the spec leaves to the implementer;
    the parser is verified for every choice. *)
Class Flattener : Type := {
  xmlToObject : XmlSource -> gmap string XmlElement;
  xmlToObject_keys :
    forall (x : XmlSource) (k : string),
      is_Some (xmlToObject x !! k) <-> k ∈ element_names (source_nodes x);
  xmlToObject_values :
    forall (x : XmlSource) (k : string) (e : XmlElement),
      xmlToObject x !! k = Some e ->
      name e = k /\ e ∈ elements (source_nodes x);
}.

(** Modelled from the spec: the flattener with the policy spec 4.1
    recommends for a repeated tag name, "first occurrence". *)
Definition flatten_first (x : XmlSource) : gmap string XmlElement :=
  foldr (fun n acc =>
           match isXmlElement n with
           | Some e => <[name e := e]> acc
           | None => acc
           end) ∅ (source_nodes x).

(** ** The mapping table *)

Record MappingInfo : Type := {
  info_name : option string;
  author : option string;
  description : option string;
}.

Record BaseMapping : Type := {
  group : string;
  key : string;
  status : number;
  midino : number;
}.

Record ControlMapping : Type := {
  control_base :> BaseMapping;
  options : list string;
}.

Record OutputMapping : Type := {
  output_base :> BaseMapping;
  minimum : option number;
  maximum : option number;
  on : option number;
  off : option number;
}.

Record MidiMapping : Type := {
  info : MappingInfo;
  controls : list ControlMapping;
  outputs : list OutputMapping;
}.

(** ** Parsing *)

Section Parser.

Context {flattener : Flattener}.

Definition parseMappingInfo (xml : XmlElement) : MappingInfo :=
  let childs := xmlToObject (FromElement xml) in
  {| info_name := text <$> childs !! "name";
     author := text <$> childs !! "author";
     description := text <$> childs !! "description" |}.

Definition parseBaseMapping (xml : XmlElement) : Completion BaseMapping :=
  let childs := xmlToObject (FromElement xml) in
  let* g := prop (childs !! "group") text in
  let* k := prop (childs !! "key") text in
  let* s := prop (childs !! "status") text in
  let* m := prop (childs !! "midino") text in
  Return {| group := g; key := k; status := parseInt s; midino := parseInt m |}.

Definition parseControlMapping (xml : XmlElement) : Completion ControlMapping :=
  let childs := xmlToObject (FromElement xml) in
  let* base := parseBaseMapping xml in
  let* opts := prop (childs !! "options") children in
  Return {| control_base := base; options := element_names opts |}.

Definition parseOutputMapping (xml : XmlElement) : Completion OutputMapping :=
  let childs := xmlToObject (FromElement xml) in
  let* base := parseBaseMapping xml in
  Return {| output_base := base;
            minimum := None; maximum := None; on := None; off := None |}.

(** [nodes.flatMap(c => isXmlElement(c) ? [f(c)] : [])] *)
Definition map_elements {A : Type} (f : XmlElement -> Completion A)
    (nodes : list XmlNode) : Completion (list A) :=
  flatMap (fun c =>
             match isXmlElement c with
             | Some e => let* a := f e in Return [a]
             | None => Return []
             end) nodes.

(** [parseMidiMapping].  [xml.root] is an element or [null].  On [null]
    either the guard throws or [childs] is [null] and reading
    [childs.controller] throws: a [TypeError] both ways.  [controller] is
    an object in both branches of its definition, never [null] or
    [undefined], so [controller?.controls] is [controller.controls], and a
    [flatMap] result is an array, so [?? []] never applies. *)
Definition parseMidiMapping (xml : XmlDocument) : Completion MidiMapping :=
  let preset := root xml in
  match preset with
  | None => Throw TypeError
  | Some preset =>
      let childs := xmlToObject (FromElement preset) in
      let controller : gmap string XmlElement :=
        match childs !! "controller" with
        | Some c => xmlToObject (FromChildren (children c))
        | None => ∅
        end in
      let i :=
        match childs !! "info" with
        | Some e => parseMappingInfo e
        | None => {| info_name := None; author := None; description := None |}
        end in
      let* cs := prop (controller !! "controls") children in
      let* cms := map_elements parseControlMapping cs in
      let* os := prop (controller !! "outputs") children in
      let* oms := map_elements parseOutputMapping os in
      Return {| info := i; controls := cms; outputs := oms |}
  end.

End Parser.

(** ** MIDI messages, actions and output state *)

Module midi.

(** [MidiMessage] of [src/midi.ts], as the engine reads it: [msg.status],
    [msg.data[0]] and [msg.data[1]]. *)
Record MidiMessage : Type := {
  status : number;
  data : list number;
}.

End midi.

Module action.

(** The action values the decoder builds:
    [{ type: 'press', control: { type: 'play' }, deck, down }]. *)
Inductive Control : Type :=
| Play.

Inductive Action : Type :=
| Press (control : Control) (deck : option number) (down : bool).

End action.

Module output.

(** Modelled from the spec: the type [Output] of [src/output.ts] (spec 3,
    OutputState): "application-supplied numeric/boolean values keyed by
    group+key". *)
Inductive OutputValue : Type :=
| Numeric (n : number)
| Boolean (b : bool).

Definition Output : Type := gmap (string * string) OutputValue.

End output.

(** ** The controller mapping *)

Record MixxxControllerMapping : Type := {
  midiMapping : MidiMapping;
  jsMappingSrc : option string;
}.

Section Parse.

Context {flattener : Flattener}.

(** The external document parser: the element tree of a source text, or
    the exception it raises. *)
Variable parseXml : string -> Completion XmlDocument.

Definition parse (xmlMappingSrc : string) (jsMappingSrc : option string)
  : Completion MixxxControllerMapping :=
  let* xmlMapping := parseXml xmlMappingSrc in
  let* midiMapping := parseMidiMapping xmlMapping in
  Return {| midiMapping := midiMapping; jsMappingSrc := jsMappingSrc |}.

End Parse.

(** The getter [info]. *)
Definition mapping_info (this : MixxxControllerMapping) : MappingInfo :=
  info (midiMapping this).

(** The predicate of [find] in [fromMidi]:
    [c.status === msg.status && c.midino === msg.data[0]]. *)
Definition selects (msg : midi.MidiMessage) (c : ControlMapping) : bool :=
  strict_eq (status c) (midi.status msg)
  && strict_eq_undef (midino c) (midi.data msg !! 0%nat).

Definition fromMidi (this : MixxxControllerMapping) (msg : midi.MidiMessage)
  : Completion (list action.Action) :=
  let control := List.find (selects msg) (controls (midiMapping this)) in
  let down := gt_zero (midi.data msg !! 1%nat) in
  let* g := prop control (fun c => group c) in
  let deck := deckFromGroup g in
  let* k := prop control (fun c => key c) in
  if String.eqb k "play" then Return [action.Press action.Play deck down]
  else Return [].

Definition toMidi (this : MixxxControllerMapping) (o : output.Output)
  : list midi.MidiMessage :=
  [].

(** ** Words of the specification, for the statements below *)

Fixpoint all_digits (s : string) : bool :=
  match s with
  | EmptyString => true
  | String c s' => is_digit c && all_digits s'
  end.

(** The number a string of decimal digits denotes. *)
Fixpoint decimal_from (acc : Z) (s : string) : Z :=
  match s with
  | EmptyString => acc
  | String c s' => decimal_from (10 * acc + (code c - 48)) s'
  end.

Definition decimal (s : string) : Z := decimal_from 0 s.

(** [p + "[Channel" + n + "]" + t] *)
Definition channel_group (p n t : string) : string :=
  p +:+ "[Channel" +:+ n +:+ "]" +:+ t.

(** [s] holds the bracketed pattern after the prefix [p], with digits [n]. *)
Definition occurrence (s p n t : string) : Prop :=
  s = channel_group p n t /\ all_digits n = true /\ n <> EmptyString.

(** The mapping [this] with [c] as its only control binding. *)
Definition only_control (this : MixxxControllerMapping) (c : ControlMapping)
  : MixxxControllerMapping :=
  {| midiMapping := {| info := info (midiMapping this);
                       controls := [c];
                       outputs := outputs (midiMapping this) |};
     jsMappingSrc := jsMappingSrc this |}.

(** The binding of the decoding example:
    [{status: 0x90, midino: 0x20, key: "play", group: "[Channel1]"}]. *)
Definition play_binding (opts : list string) : ControlMapping :=
  {| control_base := {| group := "[Channel1]"; key := "play";
                        status := Num 0x90; midino := Num 0x20 |};
     options := opts |}.

Definition note_on (data2 : Z) : midi.MidiMessage :=
  {| midi.status := Num 0x90; midi.data := [Num 0x20; Num data2] |}.

(** A mapping with no binding at all. *)
Definition empty_mapping : MixxxControllerMapping :=
  {| midiMapping := {| info := {| info_name := None; author := None;
                                  description := None |};
                       controls := [];
                       outputs := [] |};
     jsMappingSrc := None |}.

(** The binding of the encoding example:
    [{minimum: 0, maximum: 10, on: 0x7F, off: 0x00}]. *)
Definition range_binding : OutputMapping :=
  {| output_base := {| group := "[Channel1]"; key := "play_indicator";
                       status := Num 0x90; midino := Num 0x20 |};
     minimum := Some (Num 0); maximum := Some (Num 10);
     on := Some (Num 0x7F); off := Some (Num 0x00) |}.

Definition range_mapping : MixxxControllerMapping :=
  {| midiMapping := {| info := {| info_name := None; author := None;
                                  description := None |};
                       controls := [];
                       outputs := [range_binding] |};
     jsMappingSrc := None |}.

(** The output state in which the example binding's key has value [v]. *)
Definition range_state (v : Z) : output.Output :=
  {[ ("[Channel1]", "play_indicator") := output.Numeric (Num v) ]}.

(** [e] has a child element named [k]. *)
Definition has_child (e : XmlElement) (k : string) : bool :=
  bool_decide (k ∈ element_names (children e)).

Definition required_fields : list string :=
  ["group"; "key"; "status"; "midino"].

(** A [control] or [output] element that has all four required children. *)
Definition complete_binding (e : XmlElement) : bool :=
  forallb (has_child e) required_fields.

Section ParserWords.

Context {flattener : Flattener}.

(** The text of the child [k] of [e] that the flattener hands out. *)
Definition field (e : XmlElement) (k : string) : string :=
  from_option text EmptyString (xmlToObject (FromElement e) !! k).

Definition base_of (e : XmlElement) : BaseMapping :=
  {| group := field e "group"; key := field e "key";
     status := parseInt (field e "status");
     midino := parseInt (field e "midino") |}.

Definition control_of (e : XmlElement) : ControlMapping :=
  {| control_base := base_of e;
     options :=
       element_names
         (from_option children [] (xmlToObject (FromElement e) !! "options")) |}.

Definition output_of (e : XmlElement) : OutputMapping :=
  {| output_base := base_of e;
     minimum := None; maximum := None; on := None; off := None |}.

Definition info_of (preset : XmlElement) : MappingInfo :=
  match xmlToObject (FromElement preset) !! "info" with
  | Some e => parseMappingInfo e
  | None => {| info_name := None; author := None; description := None |}
  end.

End ParserWords.

(** ** Sample documents *)

Definition el (tag : string) (nodes : list XmlNode) : XmlNode :=
  XmlElementNode tag nodes.

Definition leaf (tag content : string) : XmlNode :=
  XmlElementNode tag [XmlText content].

Definition binding_element (tag g k s m : string) (more : list XmlNode)
  : XmlElement :=
  {| name := tag;
     children := [leaf "group" g; leaf "key" k; leaf "status" s;
                  leaf "midino" m] ++ more |}.

Definition node_of (e : XmlElement) : XmlNode :=
  XmlElementNode (name e) (children e).

Definition section_element (tag : string) (bindings : list XmlElement)
  : XmlElement :=
  {| name := tag; children := node_of <$> bindings |}.

Definition controller_element (cs os : list XmlElement) : XmlElement :=
  {| name := "controller";
     children := [node_of (section_element "controls" cs);
                  node_of (section_element "outputs" os)] |}.

Definition preset_element (cs os : list XmlElement) : XmlElement :=
  {| name := "MixxxControllerPreset";
     children := [el "info" [leaf "name" "Demo"];
                  node_of (controller_element cs os)] |}.

Definition preset_document (cs os : list XmlElement) : XmlDocument :=
  {| doc_children := [node_of (preset_element cs os)] |}.

Definition normal_options : list XmlNode := [el "options" [el "normal" []]].

(** A [control] whose status and an [output] whose midino are not numbers. *)
Definition non_numeric_document : XmlDocument :=
  preset_document
    [binding_element "control" "[Channel1]" "play" "abc" "0x20" normal_options]
    [binding_element "output" "[Channel1]" "play_indicator" "0x90" "xyz" []].

(** A [control] and an [output] whose status and midino lie out of range. *)
Definition out_of_range_control : XmlElement :=
  binding_element "control" "[Channel1]" "play" "300" "200" normal_options.

Definition out_of_range_output : XmlElement :=
  binding_element "output" "[Channel1]" "play_indicator" "256" "128" [].

Definition out_of_range_document : XmlDocument :=
  preset_document [out_of_range_control] [out_of_range_output].

(** A [control] without a [status] child. *)
Definition missing_status_control : XmlElement :=
  {| name := "control";
     children := [leaf "group" "[Channel1]"; leaf "key" "play";
                  leaf "midino" "0x20"] ++ normal_options |}.

Definition missing_status_document : XmlDocument :=
  preset_document [missing_status_control] [].

(** A root without a [controller] child. *)
Definition no_controller_preset : XmlElement :=
  {| name := "MixxxControllerPreset";
     children := [el "info" [leaf "name" "Demo"]] |}.

Definition no_controller_document : XmlDocument :=
  {| doc_children := [node_of no_controller_preset] |}.

(** The text of a document (the samples need no escaping). *)
Fixpoint serialize (n : XmlNode) : string :=
  match n with
  | XmlText t => t
  | XmlCdata t => "<![CDATA[" +:+ t +:+ "]]>"
  | XmlComment c => "<!--" +:+ c +:+ "-->"
  | XmlElementNode tag nodes =>
      "<" +:+ tag +:+ ">" +:+
      (fix all (ns : list XmlNode) : string :=
         match ns with
         | [] => EmptyString
         | n' :: ns' => serialize n' +:+ all ns'
         end) nodes
      +:+ "</" +:+ tag +:+ ">"
  end.

Definition source_of (doc : XmlDocument) : string :=
  foldr (fun n acc => serialize n +:+ acc) EmptyString (doc_children doc).

(** A stand-in for the document parser that knows the one text of [doc]. *)
Definition parsed_as (doc : XmlDocument) : string -> Completion XmlDocument :=
  fun src =>
    if String.eqb src (source_of doc) then Return doc
    else Throw (XmlError "not the sample text").

(** ** Further words, for the properties beyond the claims *)

(** The mapping [this] with [cs] as its control bindings. *)
Definition with_controls (this : MixxxControllerMapping)
    (cs : list ControlMapping) : MixxxControllerMapping :=
  {| midiMapping := {| info := info (midiMapping this);
                       controls := cs;
                       outputs := outputs (midiMapping this) |};
     jsMappingSrc := jsMappingSrc this |}.

(** No opening bracket occurs in [s]. *)
Fixpoint no_bracket (s : string) : bool :=
  match s with
  | EmptyString => true
  | String c s' => negb (Ascii.eqb c "[") && no_bracket s'
  end.

(** The hexadecimal digits, by their place in the alphabet of digits, and
    the number a string of them denotes. *)
Fixpoint place_of (c : ascii) (alphabet : string) (i : Z) : option Z :=
  match alphabet with
  | EmptyString => None
  | String x rest => if Ascii.eqb x c then Some i else place_of c rest (i + 1)
  end.

Definition hex_digit (c : ascii) : option Z :=
  match place_of c "0123456789abcdef" 0 with
  | Some d => Some d
  | None => place_of c "0123456789ABCDEF" 0
  end.

Fixpoint all_hex (s : string) : bool :=
  match s with
  | EmptyString => true
  | String c s' => bool_decide (is_Some (hex_digit c)) && all_hex s'
  end.

Fixpoint hex_from (acc : Z) (s : string) : Z :=
  match s with
  | EmptyString => acc
  | String c s' => hex_from (16 * acc + default 0 (hex_digit c)) s'
  end.

Definition hexadecimal (s : string) : Z := hex_from 0 s.

(** A run of [k] zero digits, for numerals of a given length. *)
Fixpoint zeros (k : nat) : string :=
  match k with
  | O => EmptyString
  | S k' => String "0" (zeros k')
  end.

(** What may follow a decimal number for the number to be read as it
    stands: nothing, or a character that is neither a digit nor the [x] of
    a hexadecimal prefix. *)
Definition ends_number (t : string) : bool :=
  match t with
  | EmptyString => true
  | String c _ =>
      negb (is_digit c) && negb (Ascii.eqb c "x") && negb (Ascii.eqb c "X")
  end.

Section ParserShape.

Context {flattener : Flattener}.

(** The shape of document that [parseMidiMapping] goes through without an
    exception: a root element, in it [controller], in that [controls] and
    [outputs]; every element under [controls] with the four required
    children and [options], every element under [outputs] with the four. *)
Definition well_formed (doc : XmlDocument) : bool :=
  match root doc with
  | None => false
  | Some preset =>
      match xmlToObject (FromElement preset) !! "controller" with
      | None => false
      | Some ctrl =>
          let controller := xmlToObject (FromChildren (children ctrl)) in
          match controller !! "controls", controller !! "outputs" with
          | Some cs, Some os =>
              forallb (fun c => complete_binding c && has_child c "options")
                (elements (children cs))
              && forallb complete_binding (elements (children os))
          | _, _ => false
          end
      end
  end.

End ParserShape.

(** ** Documents of the standard shape, built from a table of texts *)

Record BindingText : Type := {
  text_group : string;
  text_key : string;
  text_status : string;
  text_midino : string;
}.

(** The element [leaf tag content] is the node of. *)
Definition leaf_element (tag content : string) : XmlElement :=
  {| name := tag; children := [XmlText content] |}.

(** [nodes] with the nodes [junk] (white space, comments) before, between
    and after them, as a document written on several lines has them. *)
Fixpoint interleave (junk nodes : list XmlNode) : list XmlNode :=
  match nodes with
  | [] => junk
  | n :: rest => junk ++ n :: interleave junk rest
  end.

Definition no_element (nodes : list XmlNode) : bool :=
  forallb (fun n => match isXmlElement n with
                    | Some _ => false
                    | None => true
                    end) nodes.

Definition spaced (junk : list XmlNode) (tag : string) (nodes : list XmlNode)
  : XmlElement :=
  {| name := tag; children := interleave junk nodes |}.

Definition row_nodes (row : BindingText) : list XmlNode :=
  [leaf "group" (text_group row); leaf "key" (text_key row);
   leaf "status" (text_status row); leaf "midino" (text_midino row)].

Definition options_element (junk : list XmlNode) (names : list string)
  : XmlElement :=
  spaced junk "options" ((fun n => el n []) <$> names).

Definition control_element (junk : list XmlNode)
    (row : BindingText * list string) : XmlElement :=
  spaced junk "control"
    (row_nodes row.1 ++ [node_of (options_element junk row.2)]).

Definition output_element (junk more : list XmlNode) (row : BindingText)
  : XmlElement :=
  spaced junk "output" (row_nodes row ++ more).

Definition standard_controller (junk : list XmlNode)
    (cs : list (BindingText * list string)) (os : list BindingText)
    (more : list XmlNode) : XmlElement :=
  spaced junk "controller"
    [node_of (spaced junk "controls"
                (node_of <$> (control_element junk <$> cs)));
     node_of (spaced junk "outputs"
                (node_of <$> (output_element junk more <$> os)))].

Definition standard_preset (junk info_nodes : list XmlNode)
    (cs : list (BindingText * list string)) (os : list BindingText)
    (more : list XmlNode) : XmlElement :=
  spaced junk "MixxxControllerPreset"
    [el "info" info_nodes; node_of (standard_controller junk cs os more)].

Definition standard_document (junk info_nodes : list XmlNode)
    (cs : list (BindingText * list string)) (os : list BindingText)
    (more : list XmlNode) : XmlDocument :=
  {| doc_children :=
       interleave junk [node_of (standard_preset junk info_nodes cs os more)] |}.

(** An element whose element children start with the four required leaves,
    none of these names occurring among the rest. *)
Definition starts_with_row (e : XmlElement) (row : BindingText)
    (rest : list XmlElement) : Prop :=
  elements (children e) =
  leaf_element "group" (text_group row) :: leaf_element "key" (text_key row)
    :: leaf_element "status" (text_status row)
    :: leaf_element "midino" (text_midino row) :: rest /\
  forall r, r ∈ required_fields -> r ∉ name <$> rest.

(** The binding a row of texts is read as. *)
Definition read_base (row : BindingText) : BaseMapping :=
  {| group := trim (text_group row); key := trim (text_key row);
     status := parseInt (trim (text_status row));
     midino := parseInt (trim (text_midino row)) |}.

Definition read_control (row : BindingText * list string) : ControlMapping :=
  {| control_base := read_base row.1; options := row.2 |}.

Definition read_output (row : BindingText) : OutputMapping :=
  {| output_base := read_base row;
     minimum := None; maximum := None; on := None; off := None |}.

(** Sample documents: a [control] without [options]; a [controller]
    without [outputs]; an [output] with all four thresholds. *)
Definition no_options_control : XmlElement :=
  binding_element "control" "[Channel1]" "play" "0x90" "0x20" [].

Definition no_options_document : XmlDocument :=
  preset_document [no_options_control] [].

Definition no_outputs_controller : XmlElement :=
  {| name := "controller";
     children := [node_of (section_element "controls" [])] |}.

Definition no_outputs_preset : XmlElement :=
  {| name := "MixxxControllerPreset";
     children := [node_of no_outputs_controller] |}.

Definition no_outputs_document : XmlDocument :=
  {| doc_children := [node_of no_outputs_preset] |}.

Definition threshold_nodes : list XmlNode :=
  [leaf "minimum" "0"; leaf "maximum" "10"; leaf "on" "0x7F";
   leaf "off" "0x00"].

Definition threshold_row : BindingText :=
  {| text_group := "[Channel1]"; text_key := "play_indicator";
     text_status := "0x90"; text_midino := "0x20" |}.

Definition line_break : list XmlNode :=
  [XmlText "  "; XmlComment "generated"].

Definition threshold_document : XmlDocument :=
  standard_document line_break [] [] [threshold_row] threshold_nodes.

(** * Properties *)

(** ** The embedding on sample inputs *)

Example deck_leftmost : deckFromGroup "x[Channel2]y[Channel3]" = Some (Num 2).
Proof. reflexivity. Qed.

Example deck_backtrack : deckFromGroup "[Channel1[Channel07]" = Some (Num 7).
Proof. reflexivity. Qed.

Example deck_effects : deckFromGroup "[EffectRack1_EffectUnit1]" = None.
Proof. reflexivity. Qed.

Example parseInt_hex : parseInt "  -0x1Fz" = Num (-31).
Proof. reflexivity. Qed.

Example parseInt_letters : parseInt "abc" = NaN.
Proof. reflexivity. Qed.

Example parseInt_prefix : parseInt "12px" = Num 12.
Proof. reflexivity. Qed.

Example parseInt_sign_only : parseInt "+" = NaN.
Proof. reflexivity. Qed.

Example parseInt_bare_prefix : parseInt "0x" = NaN.
Proof. reflexivity. Qed.

Example trim_both : trim "  a b  " = "a b".
Proof. reflexivity. Qed.

(** ** Strings and digits *)

#[local] Arguments append _ _ : simpl nomatch.
#[local] Arguments Ascii.eqb _ _ : simpl never.

Lemma append_assoc (a b c : string) : (a +:+ b) +:+ c = a +:+ (b +:+ c).
Proof. induction a as [|x a IH]; simpl; [reflexivity | now rewrite IH]. Qed.

Lemma append_empty_r (a : string) : a +:+ EmptyString = a.
Proof. induction a as [|x a IH]; simpl; [reflexivity | now rewrite IH]. Qed.

Lemma digit_not_whitespace c : is_digit c = true -> is_whitespace c = false.
Proof.
  unfold is_digit, is_whitespace. intros H.
  apply andb_true_iff in H as [H1 H2].
  apply Z.leb_le in H1, H2.
  repeat (apply orb_false_iff; split);
    [apply andb_false_iff; right; apply Z.leb_gt; lia
    | apply Z.eqb_neq; lia | apply Z.eqb_neq; lia].
Qed.

Lemma digit_not_char c x : is_digit c = true -> is_digit x = false ->
  Ascii.eqb c x = false.
Proof.
  intros Hc Hx. destruct (Ascii.eqb_spec c x) as [->|]; congruence.
Qed.

Lemma radix_digit_decimal c :
  is_digit c = true -> radix_digit 10 c = Some (code c - 48).
Proof.
  unfold is_digit, radix_digit, digit_value. intros H. rewrite H.
  apply andb_true_iff in H as [H1 H2]. apply Z.leb_le in H1, H2.
  destruct (Z.ltb_spec (code c - 48) 10); [reflexivity | lia].
Qed.

Lemma parse_digits_decimal s a :
  all_digits s = true -> parse_digits 10 s (Some a) = Some (decimal_from a s).
Proof.
  revert a. induction s as [|c s IH]; intros a H; simpl in *; [reflexivity|].
  apply andb_true_iff in H as [Hc Hs].
  rewrite (radix_digit_decimal _ Hc). simpl. now apply IH.
Qed.

Lemma round_to_53_bits_small m :
  0 <= m < 2 ^ 53 -> round_to_53_bits m = m.
Proof.
  intros [H0 H53]. unfold round_to_53_bits.
  assert (Hlog : Z.log2 m <= 52).
  { destruct (Z.eq_dec m 0) as [->|Hm]; [simpl; lia|].
    assert (Z.log2 m < 53) by (apply Z.log2_lt_pow2; lia). lia. }
  destruct (Z.leb_spec (Z.log2 m - 52) 0); [reflexivity | lia].
Qed.

Lemma round_to_53_bits_nonneg m : 0 <= m -> 0 <= round_to_53_bits m.
Proof.
  intros Hm. unfold round_to_53_bits.
  destruct (Z.leb_spec (Z.log2 m - 52) 0) as [|He]; [exact Hm|].
  apply Z.shiftl_nonneg.
  assert (0 <= Z.shiftr m (Z.log2 m - 52)) by now apply Z.shiftr_nonneg.
  destruct ((_ <? _) || _); lia.
Qed.

(** An integer whose bits below the 53 leading ones are zero is left
    alone. *)
Lemma round_to_53_bits_fixed m :
  (0 < Z.log2 m - 52 -> m mod 2 ^ (Z.log2 m - 52) = 0) ->
  round_to_53_bits m = m.
Proof.
  intros Hmod. unfold round_to_53_bits.
  destruct (Z.leb_spec (Z.log2 m - 52) 0) as [|He]; [reflexivity|].
  specialize (Hmod He).
  set (e := Z.log2 m - 52) in *.
  rewrite Z.land_ones, Hmod by lia.
  rewrite Z.shiftl_1_l.
  assert (Hhalf : 0 < 2 ^ (e - 1)) by (apply Z.pow_pos_nonneg; lia).
  destruct (Z.ltb_spec (2 ^ (e - 1)) 0) as [|_]; [lia|].
  destruct (Z.eqb_spec 0 (2 ^ (e - 1))) as [|_]; [lia|].
  simpl. rewrite Z.shiftr_div_pow2, Z.shiftl_mul_pow2 by lia.
  pose proof (Z.div_mod m (2 ^ e) ltac:(lia)) as Hdiv. lia.
Qed.

Lemma round_to_53_bits_scaled q e :
  0 <= e -> 0 <= q <= 2 ^ 53 -> round_to_53_bits (q * 2 ^ e) = q * 2 ^ e.
Proof.
  intros He [Hq0 Hq].
  assert (Hpe : 0 < 2 ^ e) by (apply Z.pow_pos_nonneg; lia).
  destruct (Z.eq_dec q 0) as [->|Hq1]; [reflexivity|].
  apply round_to_53_bits_fixed.
  set (m := q * 2 ^ e).
  assert (Hm : 0 < m) by (unfold m; nia).
  intros Hbig.
  destruct (Z.eq_dec q (2 ^ 53)) as [Heq|Hne].
  - assert (Hm' : m = 2 ^ (53 + e))
      by (unfold m; rewrite Heq, <- Z.pow_add_r by lia; reflexivity).
    rewrite Hm', Z.log2_pow2 by lia.
    replace (53 + e) with (52 + (53 + e - 52)) at 1 by lia.
    rewrite Z.pow_add_r by lia. apply Z.mod_mul. lia.
  - assert (Hlog : Z.log2 m < 53 + e).
    { apply Z.log2_lt_pow2; [exact Hm|].
      rewrite Z.pow_add_r by lia. unfold m. nia. }
    set (e' := Z.log2 m - 52) in *.
    assert (Hsplit : m = q * 2 ^ (e - e') * 2 ^ e').
    { unfold m. rewrite <- Z.mul_assoc, <- Z.pow_add_r by lia.
      do 2 f_equal. lia. }
    rewrite Hsplit. apply Z.mod_mul.
    assert (0 < 2 ^ e') by (apply Z.pow_pos_nonneg; lia). lia.
Qed.

(** Rounding is idempotent: what it yields has 53 significant bits. *)
Lemma round_to_53_bits_idempotent m :
  0 <= m -> round_to_53_bits (round_to_53_bits m) = round_to_53_bits m.
Proof.
  intros Hm.
  destruct (Z.leb_spec (Z.log2 m - 52) 0) as [Hle|He].
  - assert (Hsmall : round_to_53_bits m = m).
    { apply round_to_53_bits_small. split; [exact Hm|].
      destruct (Z.eq_dec m 0) as [->|Hne]; [reflexivity|].
      apply Z.log2_lt_pow2; lia. }
    now rewrite !Hsmall.
  - assert (Hpos : 0 < m).
    { destruct (Z.eq_dec m 0) as [->|]; [simpl in He; lia | lia]. }
    destruct (Z.log2_spec m Hpos) as [Hlow Hup].
    assert (Hscaled : exists q, 0 <= q <= 2 ^ 53 /\
                        round_to_53_bits m = q * 2 ^ (Z.log2 m - 52)).
    { unfold round_to_53_bits.
      destruct (Z.leb_spec (Z.log2 m - 52) 0) as [|_]; [lia|].
      set (e := Z.log2 m - 52) in *.
      assert (Hq : 2 ^ 52 <= Z.shiftr m e < 2 ^ 53).
      { rewrite Z.shiftr_div_pow2 by lia.
        assert (Hpe : 0 < 2 ^ e) by (apply Z.pow_pos_nonneg; lia).
        replace (Z.log2 m) with (52 + e) in Hlow by (unfold e; lia).
        replace (Z.succ (Z.log2 m)) with (53 + e) in Hup by (unfold e; lia).
        rewrite Z.pow_add_r in Hlow, Hup by lia.
        split.
        - apply Z.div_le_lower_bound; lia.
        - apply Z.div_lt_upper_bound; lia. }
      eexists. split; [|apply Z.shiftl_mul_pow2; lia].
      destruct ((_ <? _) || _); lia. }
    destruct Hscaled as (q & Hq & ->).
    apply round_to_53_bits_scaled; lia.
Qed.

Lemma to_double_exact z : Z.abs z < 2 ^ 53 -> to_double z = Num z.
Proof.
  intros Hz. unfold to_double.
  rewrite round_to_53_bits_small by lia.
  destruct (Z.leb_spec (2 ^ 1024) (Z.abs z)) as [Hbig|_].
  - assert (2 ^ 53 < 2 ^ 1024) by (apply Z.pow_lt_mono_r; lia). lia.
  - f_equal. lia.
Qed.

Lemma to_double_nonneg z :
  0 <= z ->
  to_double z = Infinity false \/ exists r, 0 <= r /\ to_double z = Num r.
Proof.
  intros Hz. unfold to_double.
  pose proof (round_to_53_bits_nonneg (Z.abs z) (Z.abs_nonneg z)) as Hr.
  destruct (2 ^ 1024 <=? round_to_53_bits (Z.abs z)).
  - left. f_equal. apply Z.ltb_ge. exact Hz.
  - right. eexists. split; [|reflexivity].
    apply Z.mul_nonneg_nonneg; [|exact Hr].
    destruct (Z.eq_dec z 0) as [->|]; [simpl; lia|].
    rewrite Z.sgn_pos; lia.
Qed.

(** What [to_double] yields is a value, and so is what [parseInt] yields. *)
Lemma to_double_representable z : representable (to_double z).
Proof.
  unfold to_double at 1.
  pose proof (round_to_53_bits_nonneg (Z.abs z) (Z.abs_nonneg z)) as Hpos.
  pose proof (round_to_53_bits_idempotent (Z.abs z) (Z.abs_nonneg z)) as Hid.
  remember (round_to_53_bits (Z.abs z)) as m eqn:Hm. clear Hm.
  destruct (Z.leb_spec (2 ^ 1024) m) as [|Hfin]; [exact I|].
  simpl. unfold to_double.
  destruct (Z.sgn_spec z) as [[Hz Hs]|[[Hz Hs]|[Hz Hs]]]; rewrite Hs.
  - replace (Z.abs (1 * m)) with m by lia. rewrite Hid.
    destruct (Z.leb_spec (2 ^ 1024) m) as [|_]; [lia|].
    f_equal. destruct (Z.sgn_spec (1 * m)) as [[? ->]|[[? ->]|[? ->]]]; lia.
  - subst z. reflexivity.
  - replace (Z.abs _) with m by lia. rewrite Hid.
    destruct (Z.leb_spec (2 ^ 1024) m) as [|_]; [lia|].
    f_equal.
    match goal with
    | |- Z.sgn ?x * _ = _ =>
        destruct (Z.sgn_spec x) as [[? Hn]|[[? Hn]|[? Hn]]]; rewrite Hn; lia
    end.
Qed.

Lemma parseInt_representable s : representable (parseInt s).
Proof.
  unfold parseInt.
  destruct (strip_sign (trimStart s)) as [sign s'].
  destruct (strip_prefix s') as [R digits].
  destruct (parse_digits R digits None); [apply to_double_representable | exact I].
Qed.

Lemma parseInt_decimal n :
  all_digits n = true -> n <> EmptyString ->
  parseInt n = to_double (decimal n).
Proof.
  intros H Hne. destruct n as [|c n]; [congruence|]. clear Hne.
  simpl in H. apply andb_true_iff in H as [Hc Hn].
  unfold parseInt. simpl trimStart. rewrite (digit_not_whitespace _ Hc).
  unfold strip_sign.
  rewrite (digit_not_char c "-" Hc eq_refl), (digit_not_char c "+" Hc eq_refl).
  assert (Hp : strip_prefix (String c n) = (10, String c n)).
  { unfold strip_prefix. destruct n as [|x n]; [reflexivity|].
    simpl in Hn. apply andb_true_iff in Hn as [Hx _].
    rewrite (digit_not_char x "x" Hx eq_refl), (digit_not_char x "X" Hx eq_refl).
    now rewrite andb_false_r. }
  rewrite Hp. simpl parse_digits. rewrite (radix_digit_decimal _ Hc).
  simpl default. rewrite (parse_digits_decimal _ _ Hn).
  unfold decimal. simpl decimal_from. now rewrite Z.mul_1_l.
Qed.

Lemma decimal_from_nonneg s a : 0 <= a -> all_digits s = true -> 0 <= decimal_from a s.
Proof.
  revert a. induction s as [|c s IH]; intros a Ha H; simpl in *; [assumption|].
  apply andb_true_iff in H as [Hc Hs]. apply IH; [|assumption].
  unfold is_digit in Hc. apply andb_true_iff in Hc as [H1 H2].
  apply Z.leb_le in H1, H2. lia.
Qed.

(** ** The matcher on the channel pattern *)

Lemma match_here_plus a re cap c s :
  match_here (Plus a :: re) cap (String c s) =
  if accepts a c then
    match match_here (Plus a :: re) (push cap c) s with
    | Some r => Some r
    | None => match_here re (push cap c) s
    end
  else None.
Proof. reflexivity. Qed.

Lemma digits_tail_complete n acc t :
  all_digits n = true -> n <> EmptyString ->
  match_here digits_tail (Open acc) (n +:+ "]" +:+ t) = Some (Closed (acc +:+ n)).
Proof.
  revert acc. induction n as [|c n IH]; intros acc H Hne; [congruence|].
  simpl in H. apply andb_true_iff in H as [Hc Hn].
  change (String c n +:+ "]" +:+ t) with (String c (n +:+ "]" +:+ t)).
  unfold digits_tail in *. rewrite match_here_plus.
  simpl accepts. rewrite Hc. simpl push.
  destruct n as [|c' n].
  - reflexivity.
  - rewrite IH; [|assumption|congruence].
    now rewrite append_assoc.
Qed.

Lemma digits_tail_sound s acc cap :
  match_here digits_tail (Open acc) s = Some cap ->
  exists n t, s = n +:+ "]" +:+ t /\ all_digits n = true /\ n <> EmptyString
              /\ cap = Closed (acc +:+ n).
Proof.
  revert acc. induction s as [|c s IH]; intros acc H.
  - discriminate.
  - unfold digits_tail in *. rewrite match_here_plus in H. simpl accepts in H.
    destruct (is_digit c) eqn:Hc; [|discriminate].
    simpl push in H.
    destruct (match_here _ (Open (acc +:+ String c EmptyString)) s)
      as [r|] eqn:Hrec.
    + injection H as ->. apply IH in Hrec as (n & t & -> & Hn & Hne & ->).
      exists (String c n), t. simpl. rewrite Hc, Hn.
      rewrite append_assoc. repeat split; congruence.
    + simpl in H. destruct s as [|x s]; [discriminate|].
      destruct (Ascii.eqb_spec "]" x) as [<-|]; [|discriminate].
      injection H as <-. exists (String c EmptyString), s. simpl.
      rewrite Hc. repeat split; congruence.
Qed.

Lemma channel_regex_complete n t :
  all_digits n = true -> n <> EmptyString ->
  match_here channel_regex Unset (channel_group EmptyString n t) = Some (Closed n).
Proof.
  intros H Hne. unfold channel_group, channel_regex. simpl.
  exact (digits_tail_complete n EmptyString t H Hne).
Qed.

Lemma channel_regex_sound s cap :
  match_here channel_regex Unset s = Some cap ->
  exists n t, occurrence s EmptyString n t /\ cap = Closed n.
Proof.
  unfold channel_regex. intros H.
  do 8 (destruct s as [|? s]; [discriminate|];
        simpl in H;
        match type of H with
        | context [Ascii.eqb ?x ?y] =>
            destruct (Ascii.eqb_spec x y) as [<-|]; [|discriminate]
        end).
  apply (digits_tail_sound s EmptyString cap) in H as (n & t & -> & Hn & Hne & ->).
  exists n, t. unfold occurrence, channel_group. simpl. auto.
Qed.

(** ** Deck resolution *)

Lemma channel_group_prefix p n t :
  channel_group p n t = p +:+ channel_group EmptyString n t.
Proof. reflexivity. Qed.

Lemma occurrence_tail c s p n t :
  occurrence s p n t -> occurrence (String c s) (String c p) n t.
Proof. intros (-> & Hn & Hne). repeat split; assumption. Qed.

Lemma occurrence_here_matches s n t :
  occurrence s EmptyString n t ->
  match_here channel_regex Unset s = Some (Closed n).
Proof. intros (-> & Hn & Hne). now apply channel_regex_complete. Qed.

Lemma exec_unfold re s :
  exec re s =
  match match_here re Unset s with
  | Some cap => Some cap
  | None =>
      match s with
      | String _ s' => exec re s'
      | EmptyString => None
      end
  end.
Proof. destruct s; reflexivity. Qed.

Lemma exec_complete s p n t :
  occurrence s p n t -> exists cap, exec channel_regex s = Some cap.
Proof.
  revert s. induction p as [|c p IH]; intros s Hocc.
  - apply occurrence_here_matches in Hocc.
    exists (Closed n). now rewrite exec_unfold, Hocc.
  - destruct Hocc as (-> & Hn & Hne).
    change (channel_group (String c p) n t)
      with (String c (channel_group p n t)).
    rewrite exec_unfold.
    destruct (match_here channel_regex Unset _) as [cap|]; [now exists cap|].
    apply IH. repeat split; assumption.
Qed.

Lemma exec_sound s cap :
  exec channel_regex s = Some cap ->
  exists p n t,
    occurrence s p n t /\ cap = Closed n /\
    forall q m u, occurrence s q m u -> (String.length p <= String.length q)%nat.
Proof.
  induction s as [|c s IH]; rewrite exec_unfold; intros H.
  - discriminate.
  - destruct (match_here channel_regex Unset (String c s)) as [cap'|] eqn:Hm.
    + injection H as ->. apply channel_regex_sound in Hm as (n & t & Hocc & ->).
      exists EmptyString, n, t. repeat split; try apply Hocc. simpl. lia.
    + apply IH in H as (p & n & t & Hocc & -> & Hmin).
      exists (String c p), n, t. split; [now apply occurrence_tail|].
      split; [reflexivity|]. intros q m u Hq.
      destruct q as [|c' q].
      * apply occurrence_here_matches in Hq. congruence.
      * simpl. apply le_n_S. apply (Hmin q m u).
        destruct Hq as (Hq & Hm' & Hne'). injection Hq as _ ->.
        repeat split; assumption.
Qed.

Lemma append_inj_length p p' x x' :
  p +:+ x = p' +:+ x' -> String.length p = String.length p' ->
  p = p' /\ x = x'.
Proof.
  revert p'. induction p as [|c p IH]; intros [|c' p'] H Hlen;
    simpl in *; try discriminate; [auto|].
  injection H as -> H. injection Hlen as Hlen.
  destruct (IH _ H Hlen) as [-> ->]. auto.
Qed.

Lemma occurrence_unique s p n t p' n' t' :
  occurrence s p n t -> occurrence s p' n' t' ->
  String.length p = String.length p' -> n = n'.
Proof.
  intros (-> & Hn & Hne) (Heq & Hn' & Hne') Hlen.
  rewrite (channel_group_prefix p), (channel_group_prefix p') in Heq.
  apply append_inj_length in Heq as [_ Heq]; [|assumption].
  pose proof (channel_regex_complete n t Hn Hne) as H1.
  pose proof (channel_regex_complete n' t' Hn' Hne') as H2.
  rewrite Heq in H1. congruence.
Qed.

Lemma deckFromGroup_occurrence s p n t :
  occurrence s p n t ->
  exists p' n' t',
    occurrence s p' n' t' /\
    (forall q m u, occurrence s q m u ->
                   (String.length p' <= String.length q)%nat) /\
    deckFromGroup s = Some (to_double (decimal n')).
Proof.
  intros Hocc. destruct (exec_complete _ _ _ _ Hocc) as [cap Hex].
  destruct (exec_sound _ _ Hex) as (p' & n' & t' & Hocc' & -> & Hmin).
  exists p', n', t'. repeat split; try apply Hocc'; [exact Hmin|].
  unfold deckFromGroup. rewrite Hex. simpl.
  destruct Hocc' as (_ & Hn' & Hne'). now rewrite parseInt_decimal.
Qed.

Lemma deckFromGroup_none s :
  deckFromGroup s = None <-> ~ exists p n t, occurrence s p n t.
Proof.
  split.
  - intros H (p & n & t & Hocc).
    destruct (deckFromGroup_occurrence _ _ _ _ Hocc) as (? & ? & ? & _ & _ & H').
    congruence.
  - intros Hno. unfold deckFromGroup.
    destruct (exec channel_regex s) as [cap|] eqn:Hex; [|reflexivity].
    exfalso. apply Hno.
    destruct (exec_sound _ _ Hex) as (p & n & t & Hocc & _).
    now exists p, n, t.
Qed.

(** C6 (amended): deck resolution on the four sample groups.  It is a total
    function with no failure outcome.  It yields [none] exactly when the
    bracketed [Channel]-plus-digits pattern occurs nowhere in the group; a
    group that holds the pattern anywhere, the whole string having that
    form or not (["x[Channel2]y"], an effects-unit group such as
    ["[EqualizerRack1_[Channel2]_Effect1]"]), yields the number of the
    leftmost occurrence as [parseInt] reads its digits: never [NaN], a
    non-negative integer or, from about 310 digits on, [Infinity]. *)
Theorem deckFromGroup_resolution :
  deckFromGroup "[Channel1]" = Some (Num 1) /\
  deckFromGroup "[Channel12]" = Some (Num 12) /\
  deckFromGroup "[Master]" = None /\
  deckFromGroup "[Channel]" = None /\
  deckFromGroup "x[Channel2]y" = Some (Num 2) /\
  deckFromGroup "[EqualizerRack1_[Channel2]_Effect1]" = Some (Num 2) /\
  (forall s : string,
      (~ exists p n t, occurrence s p n t) <-> deckFromGroup s = None) /\
  (forall s : string,
      deckFromGroup s = None \/
      exists p n t,
        occurrence s p n t /\
        (forall q m u, occurrence s q m u ->
                       (String.length p <= String.length q)%nat) /\
        deckFromGroup s = Some (to_double (decimal n)) /\
        (to_double (decimal n) = Infinity false \/
         exists z, 0 <= z /\ to_double (decimal n) = Num z)).
Proof.
  do 6 (split; [reflexivity|]). split.
  - intros s. split; apply deckFromGroup_none.
  - intros s. destruct (deckFromGroup s) as [d|] eqn:Hd; [right|now left].
    assert (Hsome : exists p n t, occurrence s p n t).
    { destruct (exec channel_regex s) as [cap|] eqn:Hex;
        [|unfold deckFromGroup in Hd; rewrite Hex in Hd; discriminate].
      destruct (exec_sound _ _ Hex) as (p & n & t & Hocc & _).
      now exists p, n, t. }
    destruct Hsome as (p0 & n0 & t0 & Hocc0).
    destruct (deckFromGroup_occurrence _ _ _ _ Hocc0)
      as (p & n & t & Hocc & Hmin & Hdeck).
    rewrite Hdeck in Hd. injection Hd as <-.
    exists p, n, t. split; [exact Hocc|]. split; [exact Hmin|].
    split; [reflexivity|].
    apply to_double_nonneg. destruct Hocc as (_ & Hn & _).
    now apply decimal_from_nonneg.
Qed.

(** The claim fails on the code where the pattern stands inside a longer
    group: an effects-unit group, which is not of the bracketed form as a
    whole, resolves to a deck. *)
Lemma deckFromGroup_inner_pattern_counterexample :
  deckFromGroup "[EqualizerRack1_[Channel2]_Effect1]" = Some (Num 2) /\
  ~ (exists n, occurrence "[EqualizerRack1_[Channel2]_Effect1]"
                 EmptyString n EmptyString).
Proof.
  split; [reflexivity|]. intros (n & H & _). discriminate H.
Qed.

(** C10 (amended): the pattern is searched for anywhere in the group.  For
    every prefix [p], non-empty digit string [n] and suffix [t], resolving
    [p + "[Channel" + n + "]" + t] yields the number of the first (leftmost)
    occurrence of the pattern in that string, as [parseInt] reads its
    digits; when the occurrence after [p] is itself the first one, that is
    the double nearest to [n]: [n] itself when [n] is below 2^53, a rounded
    value or [Infinity] above. *)
Theorem deckFromGroup_searches :
  forall p n t : string,
    all_digits n = true -> n <> EmptyString ->
    (exists p' n' t',
        occurrence (channel_group p n t) p' n' t' /\
        (forall q m u, occurrence (channel_group p n t) q m u ->
                       (String.length p' <= String.length q)%nat) /\
        deckFromGroup (channel_group p n t) = Some (to_double (decimal n'))) /\
    ((forall q m u, occurrence (channel_group p n t) q m u ->
                    (String.length p <= String.length q)%nat) ->
     deckFromGroup (channel_group p n t) = Some (to_double (decimal n)) /\
     (decimal n < 2 ^ 53 ->
      deckFromGroup (channel_group p n t) = Some (Num (decimal n)))).
Proof.
  intros p n t Hn Hne.
  assert (Hocc : occurrence (channel_group p n t) p n t)
    by (repeat split; assumption).
  destruct (deckFromGroup_occurrence _ _ _ _ Hocc)
    as (p' & n' & t' & Hocc' & Hmin & Hdeck).
  split; [now exists p', n', t'|].
  intros Hfirst.
  assert (Hsame : n' = n).
  { apply (occurrence_unique _ _ _ _ _ _ _ Hocc' Hocc).
    apply Nat.le_antisymm;
      [now apply (Hmin p n t) | now apply (Hfirst p' n' t')]. }
  rewrite Hdeck, Hsame. split; [reflexivity|].
  intros Hsmall. rewrite to_double_exact; [reflexivity|].
  pose proof (decimal_from_nonneg n 0 ltac:(lia) Hn) as Hpos.
  fold (decimal n) in Hpos. lia.
Qed.

Lemma deckFromGroup_searches_witness :
  deckFromGroup "x[Channel2]y" = Some (Num 2).
Proof.
  refine (proj2 (proj2 (deckFromGroup_searches "x" "2" "y" eq_refl
                          ltac:(discriminate)) _) _).
  - intros q m u (H & _ & _).
    destruct q as [|c q]; [discriminate H | simpl; lia].
  - reflexivity.
Defined.

(** The claim fails on the code where the digits denote an integer that no
    double holds: the first occurrence has the digits 9007199254740993
    (2^53 + 1) and the deck is 9007199254740992. *)
Lemma deckFromGroup_rounds_counterexample :
  all_digits "9007199254740993" = true /\
  decimal "9007199254740993" = 9007199254740993 /\
  deckFromGroup (channel_group "x" "9007199254740993" "y")
  = Some (Num 9007199254740992) /\
  deckFromGroup (channel_group "x" "9007199254740993" "y")
  <> Some (Num (decimal "9007199254740993")).
Proof.
  split; [reflexivity|]. split; [reflexivity|].
  split; [vm_compute; reflexivity|]. vm_compute. discriminate.
Qed.

(** The largest doubles: a one followed by 308 zeros is still read as the
    double nearest to it, a one followed by 309 zeros as [Infinity]. *)
Lemma deckFromGroup_overflow :
  (exists z, deckFromGroup (channel_group "" ("1" +:+ zeros 308) "")
             = Some (Num z) /\ z <> 10 ^ 308 /\ Z.abs (z - 10 ^ 308) < 2 ^ 970) /\
  deckFromGroup (channel_group "" ("1" +:+ zeros 309) "")
  = Some (Infinity false).
Proof.
  split; [|vm_compute; reflexivity].
  eexists. split; [vm_compute; reflexivity|].
  split; [vm_compute; discriminate | vm_compute; reflexivity].
Qed.

(** ** The decoder *)

Lemma find_first {A : Type} (f : A -> bool) (l : list A) (i : nat) (x : A) :
  l !! i = Some x -> f x = true ->
  exists k c, (k <= i)%nat /\ l !! k = Some c /\ List.find f l = Some c /\
              ((forall k' c', (k' < i)%nat -> l !! k' = Some c' -> f c' = false) ->
               k = i /\ c = x).
Proof.
  revert i. induction l as [|y l IH]; intros i Hi Hx; [discriminate|].
  simpl. destruct (f y) eqn:Hy.
  - exists 0%nat, y.
    split; [lia|]. split; [reflexivity|]. split; [reflexivity|].
    intros Hbefore. destruct i as [|i]; [simpl in Hi; split; congruence|].
    specialize (Hbefore 0%nat y ltac:(lia) eq_refl). congruence.
  - destruct i as [|i]; [simpl in Hi; congruence|]. simpl in Hi.
    destruct (IH i Hi Hx) as (k & c & Hk & Hlk & Hfind & Hmin).
    exists (S k), c.
    split; [lia|]. split; [exact Hlk|]. split; [exact Hfind|].
    intros Hbefore. destruct Hmin as [-> ->]; [|split; reflexivity].
    intros k' c' Hlt Hl. apply (Hbefore (S k') c'); [lia | exact Hl].
Qed.

Lemma fromMidi_selected this msg c :
  List.find (selects msg) (controls (midiMapping this)) = Some c ->
  fromMidi this msg =
  Return (if String.eqb (key c) "play"
          then [action.Press action.Play (deckFromGroup (group c))
                  (gt_zero (midi.data msg !! 1%nat))]
          else []).
Proof.
  intros H. unfold fromMidi. rewrite H. simpl.
  destruct (String.eqb (key c) "play"); reflexivity.
Qed.

Lemma fromMidi_only_control this msg c :
  selects msg c = true ->
  List.find (selects msg) (controls (midiMapping this)) = Some c ->
  fromMidi this msg = fromMidi (only_control this c) msg.
Proof.
  intros Hsel Hfind. rewrite (fromMidi_selected this msg c Hfind).
  symmetry. apply fromMidi_selected. simpl. now rewrite Hsel.
Qed.

(** C1 (as the code behaves): when no control binding's (status, note)
    equals the message's (status, data1), and so whenever [controls] is
    empty, [find] yields [undefined] and reading [control.group] throws a
    [TypeError]; no empty sequence is returned. *)
Theorem fromMidi_unmapped_throws :
  forall (this : MixxxControllerMapping) (msg : midi.MidiMessage),
    (forall c, In c (controls (midiMapping this)) -> selects msg c = false) ->
    fromMidi this msg = Throw TypeError.
Proof.
  intros this msg Hnone. unfold fromMidi.
  destruct (List.find (selects msg) (controls (midiMapping this)))
    as [c|] eqn:Hfind; [|reflexivity].
  apply find_some in Hfind as [Hin Hsel].
  rewrite (Hnone c Hin) in Hsel. discriminate.
Qed.

Lemma fromMidi_unmapped_throws_witness :
  fromMidi empty_mapping (note_on 0x7F) = Throw TypeError.
Proof.
  apply (fromMidi_unmapped_throws empty_mapping (note_on 0x7F)).
  simpl. intros c [].
Defined.

(** C5: against a definition whose sole control binding is
    [{status: 0x90, midino: 0x20, key: "play", group: "[Channel1]"}], the
    message (0x90, 0x20, 0x7F) decodes to exactly one action, a press of
    [play] on deck 1 with [down] true; with data2 = 0x00 the same action
    with [down] false. *)
Theorem fromMidi_play_down_up :
  forall (i : MappingInfo) (outs : list OutputMapping) (js : option string)
         (opts : list string),
    fromMidi {| midiMapping := {| info := i; controls := [play_binding opts];
                                  outputs := outs |};
                jsMappingSrc := js |} (note_on 0x7F)
    = Return [action.Press action.Play (Some (Num 1)) true] /\
    fromMidi {| midiMapping := {| info := i; controls := [play_binding opts];
                                  outputs := outs |};
                jsMappingSrc := js |} (note_on 0x00)
    = Return [action.Press action.Play (Some (Num 1)) false].
Proof.
  intros i outs js opts. split.
  - rewrite (fromMidi_selected _ _ (play_binding opts)); reflexivity.
  - rewrite (fromMidi_selected _ _ (play_binding opts)); reflexivity.
Qed.

(** C7: when two control bindings share (status, note) and differ in key,
    and the message carries that pair, both match the message, and the
    binding [find] selects stands no later than the earlier of the two, so
    the later one is never selected; the result is built from the group and
    key of the binding selected.  When nothing before the earlier one
    matches, the earlier one is selected: the result is the press of
    [play] on the deck of its group when its key is [play], and empty
    otherwise, whatever data2 is; the later binding, which alone would
    give an empty result in the first case and a press on the deck of its
    own group when its key is [play], has no part in it. *)
Theorem fromMidi_first_binding_wins :
  forall (this : MixxxControllerMapping) (msg : midi.MidiMessage)
         (i j : nat) (b1 b2 : ControlMapping),
    (i < j)%nat ->
    controls (midiMapping this) !! i = Some b1 ->
    controls (midiMapping this) !! j = Some b2 ->
    status b1 = status b2 -> midino b1 = midino b2 -> key b1 <> key b2 ->
    selects msg b1 = true ->
    selects msg b2 = true /\
    (exists k c,
        (k <= i)%nat /\ (k < j)%nat /\
        controls (midiMapping this) !! k = Some c /\
        List.find (selects msg) (controls (midiMapping this)) = Some c /\
        fromMidi this msg = fromMidi (only_control this c) msg /\
        fromMidi this msg =
        Return (if String.eqb (key c) "play"
                then [action.Press action.Play (deckFromGroup (group c))
                        (gt_zero (midi.data msg !! 1%nat))]
                else [])) /\
    ((forall k c, (k < i)%nat -> controls (midiMapping this) !! k = Some c ->
                  selects msg c = false) ->
     List.find (selects msg) (controls (midiMapping this)) = Some b1 /\
     fromMidi this msg = fromMidi (only_control this b1) msg /\
     fromMidi this msg =
     Return (if String.eqb (key b1) "play"
             then [action.Press action.Play (deckFromGroup (group b1))
                     (gt_zero (midi.data msg !! 1%nat))]
             else []) /\
     (key b1 = "play" ->
      fromMidi this msg =
      Return [action.Press action.Play (deckFromGroup (group b1))
                (gt_zero (midi.data msg !! 1%nat))] /\
      fromMidi (only_control this b2) msg = Return []) /\
     (key b2 = "play" ->
      fromMidi this msg = Return [] /\
      fromMidi (only_control this b2) msg =
      Return [action.Press action.Play (deckFromGroup (group b2))
                (gt_zero (midi.data msg !! 1%nat))])).
Proof.
  intros this msg i j b1 b2 Hij Hi Hj Hstatus Hmidino Hkey Hsel.
  assert (Hsel2 : selects msg b2 = true).
  { unfold selects in *. now rewrite <- Hstatus, <- Hmidino. }
  destruct (find_first (selects msg) _ i b1 Hi Hsel)
    as (k & c & Hk & Hlk & Hfind & Hmin).
  assert (Hc : selects msg c = true) by (apply find_some in Hfind; tauto).
  assert (Halone : fromMidi (only_control this b2) msg =
                   Return (if String.eqb (key b2) "play"
                           then [action.Press action.Play
                                   (deckFromGroup (group b2))
                                   (gt_zero (midi.data msg !! 1%nat))]
                           else [])).
  { apply fromMidi_selected. simpl. now rewrite Hsel2. }
  split; [exact Hsel2|]. split.
  - exists k, c. repeat split; try assumption; try lia.
    + now apply fromMidi_only_control.
    + now apply fromMidi_selected.
  - intros Hbefore. destruct (Hmin Hbefore) as [-> ->].
    pose proof (fromMidi_selected this msg b1 Hfind) as Hres.
    split; [assumption|]. split; [now apply fromMidi_only_control|].
    split; [exact Hres|]. split.
    + intros Hplay. rewrite Hres, Halone.
      assert (Hother : String.eqb (key b2) "play" = false)
        by (apply String.eqb_neq; congruence).
      rewrite Hother, Hplay. split; reflexivity.
    + intros Hplay. rewrite Hres, Halone.
      assert (Hother : String.eqb (key b1) "play" = false)
        by (apply String.eqb_neq; congruence).
      rewrite Hother, Hplay. split; reflexivity.
Qed.

Lemma fromMidi_first_binding_wins_witness :
  fromMidi {| midiMapping :=
                {| info := info (midiMapping empty_mapping);
                   controls :=
                     [play_binding [];
                      {| control_base := {| group := "[Channel2]"; key := "cue";
                                            status := Num 0x90;
                                            midino := Num 0x20 |};
                         options := [] |}];
                   outputs := [] |};
              jsMappingSrc := None |} (note_on 0x7F)
  = Return [action.Press action.Play (Some (Num 1)) true].
Proof.
  refine (proj1 (proj2 (proj2 (proj2 (proj2 (fromMidi_first_binding_wins
                   {| midiMapping :=
                        {| info := info (midiMapping empty_mapping);
                           controls :=
                             [play_binding [];
                              {| control_base :=
                                   {| group := "[Channel2]"; key := "cue";
                                      status := Num 0x90;
                                      midino := Num 0x20 |};
                                 options := [] |}];
                           outputs := [] |};
                      jsMappingSrc := None |}
                   (note_on 0x7F) 0%nat 1%nat _ _ ltac:(lia) eq_refl eq_refl
                   eq_refl eq_refl ltac:(discriminate) eq_refl)) _)))).
  intros k c Hk. lia.
Defined.

(** ** The encoder *)

(** C9: for every mapping, parsed or not, and every output state, [toMidi]
    returns the empty sequence: no feedback message is ever emitted. *)
Theorem toMidi_empty :
  forall (this : MixxxControllerMapping) (o : output.Output),
    toMidi this o = [].
Proof. intros this o. unfold toMidi. reflexivity. Qed.

(** C4 (as the code behaves): for an output binding with minimum 0,
    maximum 10, on 0x7F and off 0x00, encoding emits no message for it,
    whether the output state's value for its (group, key) is 5, is 15 or is
    absent. *)
Theorem toMidi_ignores_range :
  forall (this : MixxxControllerMapping) (b : OutputMapping)
         (o : output.Output),
    In b (outputs (midiMapping this)) ->
    minimum b = Some (Num 0) -> maximum b = Some (Num 10) ->
    on b = Some (Num 0x7F) -> off b = Some (Num 0x00) ->
    (o !! (group b, key b) = Some (output.Numeric (Num 5)) \/
     o !! (group b, key b) = Some (output.Numeric (Num 15)) \/
     o !! (group b, key b) = None) ->
    toMidi this o = [].
Proof.
  intros this b o Hin Hmin Hmax Hon Hoff Hvalue.
  unfold toMidi. reflexivity.
Qed.

Lemma toMidi_ignores_range_witness :
  toMidi range_mapping (range_state 5) = [].
Proof.
  refine (toMidi_ignores_range range_mapping range_binding (range_state 5)
            _ eq_refl eq_refl eq_refl eq_refl _).
  - simpl. left. reflexivity.
  - left. reflexivity.
Defined.

(** The encoding example fails on the code: with value 5 in range no message
    at all is emitted, hence none with data2 = 0x7F; likewise for the value
    15 and data2 = 0x00. *)
Lemma toMidi_range_counterexample :
  In range_binding (outputs (midiMapping range_mapping)) /\
  range_state 5 !! (group range_binding, key range_binding)
    = Some (output.Numeric (Num 5)) /\
  toMidi range_mapping (range_state 5) = [] /\
  (~ exists m, toMidi range_mapping (range_state 5) = [m] /\
               midi.data m !! 1%nat = Some (Num 0x7F)) /\
  toMidi range_mapping (range_state 15) = [] /\
  (~ exists m, toMidi range_mapping (range_state 15) = [m] /\
               midi.data m !! 1%nat = Some (Num 0x00)).
Proof.
  repeat split; try reflexivity.
  - simpl. now left.
  - intros (m & H & _). discriminate H.
  - intros (m & H & _). discriminate H.
Qed.

(** ** The flattener *)

Lemma element_names_cons n nodes :
  element_names (n :: nodes) =
  match isXmlElement n with
  | Some e => name e :: element_names nodes
  | None => element_names nodes
  end.
Proof. unfold element_names. simpl. now destruct (isXmlElement n). Qed.

Lemma elements_cons n nodes :
  elements (n :: nodes) =
  match isXmlElement n with
  | Some e => e :: elements nodes
  | None => elements nodes
  end.
Proof. reflexivity. Qed.

Lemma flatten_first_find x k :
  flatten_first x !! k =
  List.find (fun e => String.eqb (name e) k) (elements (source_nodes x)).
Proof.
  unfold flatten_first.
  induction (source_nodes x) as [|n nodes IH]; [reflexivity|].
  rewrite elements_cons. simpl foldr.
  destruct (isXmlElement n) as [e|]; [|exact IH].
  simpl List.find. rewrite lookup_insert.
  destruct (String.eqb_spec (name e) k) as [->|Hne].
  - now rewrite decide_True.
  - now rewrite decide_False.
Qed.

Lemma flatten_first_keys x k :
  is_Some (flatten_first x !! k) <-> k ∈ element_names (source_nodes x).
Proof.
  rewrite flatten_first_find.
  induction (source_nodes x) as [|n nodes IH].
  - split; [intros [? [=]] | intros Hin; inversion Hin].
  - rewrite element_names_cons, elements_cons.
    destruct (isXmlElement n) as [e|]; [|exact IH].
    simpl List.find. rewrite elem_of_cons.
    destruct (String.eqb_spec (name e) k) as [->|Hne].
    + split; [now left | intros _; now exists e].
    + rewrite IH. split; [now right | intros [?|?]; [congruence|assumption]].
Qed.

Lemma flatten_first_values x k e :
  flatten_first x !! k = Some e ->
  name e = k /\ e ∈ elements (source_nodes x).
Proof.
  rewrite flatten_first_find. intros Hfind.
  apply find_some in Hfind as [Hin Hname].
  split; [now apply String.eqb_eq | now apply list_elem_of_In].
Qed.

(** Modelled from the spec: the recommended flattener is a flattener. *)
#[global] Instance first_occurrence : Flattener :=
  {| xmlToObject := flatten_first;
     xmlToObject_keys := flatten_first_keys;
     xmlToObject_values := flatten_first_values |}.

(** With it, a parsed document is decoded against. *)
Example parse_then_decode :
  (let* this :=
     parse (parsed_as
              (preset_document
                 [binding_element "control" " [Channel1] " "play" "0x90" "0x20"
                    normal_options]
                 []))
       "<MixxxControllerPreset><info><name>Demo</name></info><controller><controls><control><group> [Channel1] </group><key>play</key><status>0x90</status><midino>0x20</midino><options><normal></normal></options></control></controls><outputs></outputs></controller></MixxxControllerPreset>"
       None in
   fromMidi this (note_on 0x7F))
  = Return [action.Press action.Play (Some (Num 1)) true].
Proof. vm_compute. reflexivity. Qed.

Example parse_other_text :
  parse (parsed_as no_controller_document) "<MixxxControllerPreset>" None
  = Throw (XmlError "not the sample text").
Proof. vm_compute. reflexivity. Qed.

Example flatten_first_repeated :
  children <$>
    (flatten_first (FromChildren [leaf "key" "a"; XmlText " "; leaf "key" "b"])
     !! "key")
  = Some [XmlText "a"].
Proof. vm_compute. reflexivity. Qed.

Example parse_no_root :
  parseMidiMapping {| doc_children := [XmlComment "empty"] |} = Throw TypeError.
Proof. reflexivity. Qed.

(** ** The parser, for any flattener *)

Section ParserProperties.

Context {flattener : Flattener}.

Lemma has_child_lookup e k :
  has_child e k =
  match xmlToObject (FromElement e) !! k with
  | Some _ => true
  | None => false
  end.
Proof.
  unfold has_child.
  pose proof (xmlToObject_keys (FromElement e) k) as Hkeys. simpl in Hkeys.
  destruct (xmlToObject (FromElement e) !! k) as [c|].
  - apply bool_decide_eq_true. apply Hkeys. now exists c.
  - apply bool_decide_eq_false. intros Hin.
    apply Hkeys in Hin as [c Hc]. discriminate.
Qed.

Lemma has_child_true e k :
  has_child e k = true -> exists c, xmlToObject (FromElement e) !! k = Some c.
Proof.
  rewrite has_child_lookup.
  destruct (xmlToObject (FromElement e) !! k) as [c|]; [eauto | discriminate].
Qed.

Lemma has_child_false e k :
  has_child e k = false -> xmlToObject (FromElement e) !! k = None.
Proof.
  rewrite has_child_lookup.
  destruct (xmlToObject (FromElement e) !! k); [discriminate | reflexivity].
Qed.

Lemma parseBaseMapping_complete e :
  complete_binding e = true -> parseBaseMapping e = Return (base_of e).
Proof.
  unfold complete_binding, required_fields. simpl forallb.
  rewrite !andb_true_iff. intros (Hg & Hk & Hs & Hm & _).
  apply has_child_true in Hg as [g Hg], Hk as [k Hk], Hs as [s Hs], Hm as [m Hm].
  unfold parseBaseMapping, base_of, field. now rewrite Hg, Hk, Hs, Hm.
Qed.

Lemma parseBaseMapping_incomplete e :
  complete_binding e = false -> parseBaseMapping e = Throw TypeError.
Proof.
  unfold complete_binding, required_fields. simpl forallb.
  rewrite !has_child_lookup. unfold parseBaseMapping.
  destruct (xmlToObject (FromElement e) !! "group"); [|reflexivity].
  destruct (xmlToObject (FromElement e) !! "key"); [|reflexivity].
  destruct (xmlToObject (FromElement e) !! "status"); [|reflexivity].
  destruct (xmlToObject (FromElement e) !! "midino"); [|reflexivity].
  discriminate.
Qed.

Lemma parseBaseMapping_error e err :
  parseBaseMapping e = Throw err -> err = TypeError.
Proof.
  destruct (complete_binding e) eqn:Hc.
  - rewrite (parseBaseMapping_complete e Hc). discriminate.
  - rewrite (parseBaseMapping_incomplete e Hc). congruence.
Qed.

Lemma parseControlMapping_error e err :
  parseControlMapping e = Throw err -> err = TypeError.
Proof.
  unfold parseControlMapping.
  destruct (parseBaseMapping e) as [b|err'] eqn:Hb; simpl.
  - destruct (xmlToObject (FromElement e) !! "options"); simpl; congruence.
  - intros [= <-]. exact (parseBaseMapping_error e err' Hb).
Qed.

Lemma parseOutputMapping_error e err :
  parseOutputMapping e = Throw err -> err = TypeError.
Proof.
  unfold parseOutputMapping.
  destruct (parseBaseMapping e) as [b|err'] eqn:Hb; simpl.
  - discriminate.
  - intros [= <-]. exact (parseBaseMapping_error e err' Hb).
Qed.

Lemma parseControlMapping_complete e :
  complete_binding e = true -> has_child e "options" = true ->
  parseControlMapping e = Return (control_of e).
Proof.
  intros Hc Ho. apply has_child_true in Ho as [o Ho].
  unfold parseControlMapping, control_of.
  rewrite (parseBaseMapping_complete e Hc), Ho. reflexivity.
Qed.

Lemma parseOutputMapping_complete e :
  complete_binding e = true -> parseOutputMapping e = Return (output_of e).
Proof.
  intros Hc. unfold parseOutputMapping, output_of.
  now rewrite (parseBaseMapping_complete e Hc).
Qed.

Section MapElements.

Context {A : Type} (f : XmlElement -> Completion A).

Lemma map_elements_cons n nodes :
  map_elements f (n :: nodes) =
  match isXmlElement n with
  | Some e =>
      let* a := f e in
      let* rest := map_elements f nodes in
      Return (a :: rest)
  | None => map_elements f nodes
  end.
Proof.
  unfold map_elements. simpl. destruct (isXmlElement n) as [e|]; simpl.
  - destruct (f e); simpl; [|reflexivity].
    now destruct (flatMap _ nodes).
  - now destruct (flatMap _ nodes).
Qed.

Lemma map_elements_ok (g : XmlElement -> A) nodes :
  (forall e, e ∈ elements nodes -> f e = Return (g e)) ->
  map_elements f nodes = Return (g <$> elements nodes).
Proof.
  induction nodes as [|n nodes IH]; intros H; [reflexivity|].
  rewrite map_elements_cons. rewrite elements_cons in *.
  destruct (isXmlElement n) as [e|].
  - rewrite (H e) by left. simpl. rewrite IH; [reflexivity|].
    intros e' He'. apply H. now right.
  - now apply IH.
Qed.

Hypothesis only_TypeError : forall e err, f e = Throw err -> err = TypeError.

Lemma map_elements_error nodes err :
  map_elements f nodes = Throw err -> err = TypeError.
Proof.
  induction nodes as [|n nodes IH]; [discriminate|].
  rewrite map_elements_cons. destruct (isXmlElement n) as [e|]; [|exact IH].
  destruct (f e) as [a|err'] eqn:Hf; simpl.
  - destruct (map_elements f nodes); simpl; [discriminate|].
    intros [= <-]. now apply IH.
  - intros [= <-]. exact (only_TypeError e err' Hf).
Qed.

Lemma map_elements_throw nodes e :
  e ∈ elements nodes -> f e = Throw TypeError ->
  map_elements f nodes = Throw TypeError.
Proof.
  intros Hin Hf.
  destruct (map_elements f nodes) as [l|err] eqn:Hm;
    [|f_equal; exact (map_elements_error nodes err Hm)].
  exfalso. revert l Hm.
  induction nodes as [|n nodes IH]; intros l; [inversion Hin|].
  rewrite map_elements_cons. rewrite elements_cons in Hin.
  destruct (isXmlElement n) as [e'|]; [|now apply IH].
  apply elem_of_cons in Hin as [<-|Hin].
  - rewrite Hf. discriminate.
  - destruct (f e'); simpl; [|discriminate].
    destruct (map_elements f nodes) as [l'|] eqn:Hm'; [|discriminate].
    intros _. exact (IH Hin l' eq_refl).
Qed.

End MapElements.

Lemma parseMidiMapping_controller doc preset ctrl :
  root doc = Some preset ->
  xmlToObject (FromElement preset) !! "controller" = Some ctrl ->
  parseMidiMapping doc =
  let controller := xmlToObject (FromChildren (children ctrl)) in
  let* cs := prop (controller !! "controls") children in
  let* cms := map_elements parseControlMapping cs in
  let* os := prop (controller !! "outputs") children in
  let* oms := map_elements parseOutputMapping os in
  Return {| info := info_of preset; controls := cms; outputs := oms |}.
Proof.
  intros Hroot Hctrl. unfold parseMidiMapping, info_of.
  rewrite Hroot, Hctrl. reflexivity.
Qed.

Lemma parseMidiMapping_error doc err :
  parseMidiMapping doc = Throw err -> err = TypeError.
Proof.
  unfold parseMidiMapping. destruct (root doc) as [preset|]; [|congruence].
  set (controller := match _ !! "controller" with Some _ => _ | None => _ end).
  destruct (controller !! "controls") as [cs|]; simpl; [|congruence].
  destruct (map_elements parseControlMapping (children cs)) as [cms|e1] eqn:H1;
    simpl.
  - destruct (controller !! "outputs") as [os|]; simpl; [|congruence].
    destruct (map_elements parseOutputMapping (children os)) as [oms|e2] eqn:H2;
      simpl; [discriminate|].
    intros [= <-].
    exact (map_elements_error _ parseOutputMapping_error _ _ H2).
  - intros [= <-].
    exact (map_elements_error _ parseControlMapping_error _ _ H1).
Qed.

Lemma parse_unfold parseXml src js doc :
  parseXml src = Return doc ->
  parse parseXml src js =
  let* m := parseMidiMapping doc in
  Return {| midiMapping := m; jsMappingSrc := js |}.
Proof. intros Hdoc. unfold parse. now rewrite Hdoc. Qed.

(** C3 (as the code behaves): for a document whose root has no
    [controller] child, [controller] is the empty object, reading
    [controller.controls.children] throws a [TypeError] and [parse] fails;
    no mapping with empty [controls] and [outputs] is returned. *)
Theorem parse_without_controller_throws :
  forall (parseXml : string -> Completion XmlDocument) (src : string)
         (js : option string) (doc : XmlDocument) (preset : XmlElement),
    parseXml src = Return doc ->
    root doc = Some preset ->
    has_child preset "controller" = false ->
    parse parseXml src js = Throw TypeError.
Proof.
  intros parseXml src js doc preset Hdoc Hroot Hno.
  rewrite (parse_unfold _ _ _ _ Hdoc). unfold parseMidiMapping.
  rewrite Hroot, (has_child_false _ _ Hno). simpl.
  now rewrite lookup_empty.
Qed.

(** C2 (amended): when an element under [controller/controls] or under
    [controller/outputs] of the document lacks one of the children [group],
    [key], [status], [midino], [parse] fails, with the [TypeError] of
    reading the missing child, and produces no mapping.  Text that is not a
    number is not rejected: for such an element with the four children,
    [parseBaseMapping] returns a base binding whose [status] and [midino]
    are what [parseInt] makes of the texts, [NaN] included; whether
    [parse] then returns depends on the rest of the document, a [control]
    element needing an [options] child as well. *)
Theorem parse_missing_field_throws :
  forall (parseXml : string -> Completion XmlDocument) (src : string)
         (js : option string) (doc : XmlDocument)
         (preset ctrl sect c : XmlElement) (section : string),
    parseXml src = Return doc ->
    root doc = Some preset ->
    xmlToObject (FromElement preset) !! "controller" = Some ctrl ->
    section = "controls" \/ section = "outputs" ->
    xmlToObject (FromChildren (children ctrl)) !! section = Some sect ->
    c ∈ elements (children sect) ->
    (complete_binding c = false ->
     parse parseXml src js = Throw TypeError) /\
    (complete_binding c = true ->
     exists b, parseBaseMapping c = Return b /\
               status b = parseInt (field c "status") /\
               midino b = parseInt (field c "midino")).
Proof.
  intros parseXml src js doc preset ctrl sect c section
         Hdoc Hroot Hctrl Hsection Hsect Hc.
  split.
  - intros Hmissing.
    rewrite (parse_unfold _ _ _ _ Hdoc).
    rewrite (parseMidiMapping_controller _ _ _ Hroot Hctrl). cbv zeta.
    pose proof (parseBaseMapping_incomplete c Hmissing) as Hbase.
    destruct Hsection as [-> | ->].
    + rewrite Hsect. simpl prop. simpl bind at 1.
      rewrite (map_elements_throw parseControlMapping parseControlMapping_error
                 (children sect) c Hc); [reflexivity|].
      unfold parseControlMapping. now rewrite Hbase.
    + destruct (xmlToObject (FromChildren (children ctrl)) !! "controls")
        as [cs|]; [|reflexivity].
      simpl prop. simpl bind at 1.
      destruct (map_elements parseControlMapping (children cs))
        as [cms|err] eqn:Hcms.
      * rewrite Hsect. simpl.
        rewrite (map_elements_throw parseOutputMapping parseOutputMapping_error
                   (children sect) c Hc); [reflexivity|].
        unfold parseOutputMapping. now rewrite Hbase.
      * rewrite (map_elements_error _ parseControlMapping_error _ _ Hcms).
        reflexivity.
  - intros Hcomplete. exists (base_of c).
    split; [now apply parseBaseMapping_complete | split; reflexivity].
Qed.

(** C8 (amended): [parse] checks no range.  For a document with a root
    element that has a [controller] child holding both a [controls] and an
    [outputs] section, where every element under [controls] has the four
    required children and [options] and every element under [outputs] has
    the four required children, [parse] succeeds, and the status and note
    of every binding are the numbers [parseInt] reads from the [status] and
    [midino] texts, whatever their magnitude: a value outside 0-255 or
    0-127 is kept, not rejected. *)
Theorem parse_keeps_any_number :
  forall (parseXml : string -> Completion XmlDocument) (src : string)
         (js : option string) (doc : XmlDocument)
         (preset ctrl cs os : XmlElement),
    parseXml src = Return doc ->
    root doc = Some preset ->
    xmlToObject (FromElement preset) !! "controller" = Some ctrl ->
    xmlToObject (FromChildren (children ctrl)) !! "controls" = Some cs ->
    xmlToObject (FromChildren (children ctrl)) !! "outputs" = Some os ->
    (forall c, c ∈ elements (children cs) ->
               complete_binding c = true /\ has_child c "options" = true) ->
    (forall o, o ∈ elements (children os) -> complete_binding o = true) ->
    parse parseXml src js =
    Return {| midiMapping :=
                {| info := info_of preset;
                   controls := control_of <$> elements (children cs);
                   outputs := output_of <$> elements (children os) |};
              jsMappingSrc := js |}.
Proof.
  intros parseXml src js doc preset ctrl cs os
         Hdoc Hroot Hctrl Hcs Hos Hcontrols Houtputs.
  rewrite (parse_unfold _ _ _ _ Hdoc).
  rewrite (parseMidiMapping_controller _ _ _ Hroot Hctrl). cbv zeta.
  rewrite Hcs, Hos. simpl prop. simpl bind at 1.
  rewrite (map_elements_ok parseControlMapping control_of).
  - simpl bind at 1. simpl bind at 1.
    rewrite (map_elements_ok parseOutputMapping output_of); [reflexivity|].
    intros o Ho. apply parseOutputMapping_complete. now apply Houtputs.
  - intros c Hc. destruct (Hcontrols c Hc) as [H1 H2].
    now apply parseControlMapping_complete.
Qed.

End ParserProperties.

(** ** The parser on the sample documents *)

Lemma parse_without_controller_throws_witness :
  parse (parsed_as no_controller_document) (source_of no_controller_document)
    None
  = Throw TypeError.
Proof.
  apply (parse_without_controller_throws _ _ _ no_controller_document
           no_controller_preset); vm_compute; reflexivity.
Defined.

Lemma parse_missing_field_throws_witness :
  parse (parsed_as missing_status_document)
    (source_of missing_status_document) None
  = Throw TypeError.
Proof.
  refine (proj1 (parse_missing_field_throws
                   (parsed_as missing_status_document)
                   (source_of missing_status_document) None
                   missing_status_document
                   (preset_element [missing_status_control] [])
                   (controller_element [missing_status_control] [])
                   (section_element "controls" [missing_status_control])
                   missing_status_control
                   "controls" _ _ _ (or_introl eq_refl) _ _) _).
  - vm_compute. reflexivity.
  - vm_compute. reflexivity.
  - vm_compute. reflexivity.
  - vm_compute. reflexivity.
  - vm_compute. left.
  - vm_compute. reflexivity.
Defined.

(** The claim fails on the code where the text is not a number: a [control]
    with status [abc] and an [output] with midino [xyz] are parsed, each to a
    binding with [NaN] in that field.  (And where a child is missing, the
    failure is the [TypeError] of the property read.) *)
Lemma parse_non_numeric_counterexample :
  parse (parsed_as non_numeric_document) (source_of non_numeric_document) None
  = Return
      {| midiMapping :=
           {| info := {| info_name := Some "Demo"; author := None;
                         description := None |};
              controls :=
                [{| control_base := {| group := "[Channel1]"; key := "play";
                                       status := NaN; midino := Num 0x20 |};
                    options := ["normal"] |}];
              outputs :=
                [{| output_base := {| group := "[Channel1]";
                                      key := "play_indicator";
                                      status := Num 0x90; midino := NaN |};
                    minimum := None; maximum := None;
                    on := None; off := None |}] |};
         jsMappingSrc := None |} /\
  parse (parsed_as missing_status_document)
    (source_of missing_status_document) None
  = Throw TypeError.
Proof. split; vm_compute; reflexivity. Qed.

Lemma parse_keeps_any_number_witness :
  parse (parsed_as out_of_range_document) (source_of out_of_range_document)
    None
  = Return
      {| midiMapping :=
           {| info := {| info_name := Some "Demo"; author := None;
                         description := None |};
              controls :=
                [{| control_base := {| group := "[Channel1]"; key := "play";
                                       status := Num 300; midino := Num 200 |};
                    options := ["normal"] |}];
              outputs :=
                [{| output_base := {| group := "[Channel1]";
                                      key := "play_indicator";
                                      status := Num 256; midino := Num 128 |};
                    minimum := None; maximum := None;
                    on := None; off := None |}] |};
         jsMappingSrc := None |}.
Proof.
  refine (parse_keeps_any_number
            (parsed_as out_of_range_document)
            (source_of out_of_range_document) None
            out_of_range_document
            (preset_element [out_of_range_control] [out_of_range_output])
            (controller_element [out_of_range_control] [out_of_range_output])
            (section_element "controls" [out_of_range_control])
            (section_element "outputs" [out_of_range_output])
            _ _ _ _ _ _ _).
  - vm_compute. reflexivity.
  - vm_compute. reflexivity.
  - vm_compute. reflexivity.
  - vm_compute. reflexivity.
  - vm_compute. reflexivity.
  - intros c Hc. apply list_elem_of_In in Hc. simpl in Hc.
    destruct Hc as [<-|[]]. split; vm_compute; reflexivity.
  - intros o Ho. apply list_elem_of_In in Ho. simpl in Ho.
    destruct Ho as [<-|[]]. vm_compute; reflexivity.
Defined.

(** The claim fails on the code: a [control] with status 300 and midino 200
    and an [output] with status 256 and midino 128 are parsed, and the
    mapping is built with those numbers in it. *)
Lemma parse_out_of_range_counterexample :
  exists this,
    parse (parsed_as out_of_range_document) (source_of out_of_range_document)
      None
    = Return this /\
    (status <$> (control_base <$> controls (midiMapping this))) = [Num 300] /\
    (midino <$> (control_base <$> controls (midiMapping this))) = [Num 200] /\
    (status <$> (output_base <$> outputs (midiMapping this))) = [Num 256] /\
    (midino <$> (output_base <$> outputs (midiMapping this))) = [Num 128].
Proof.
  eexists. split; [vm_compute; reflexivity|]. repeat split.
Qed.

(** * Properties beyond the claims *)

(** ** The parser: when it returns, and what *)

Section ParserInversion.

Context {flattener : Flattener}.

Lemma map_elements_inv {A : Type} (f : XmlElement -> Completion A) nodes l :
  map_elements f nodes = Return l ->
  Forall2 (fun e a => f e = Return a) (elements nodes) l.
Proof.
  revert l. induction nodes as [|n nodes IH]; intros l.
  - intros [= <-]. constructor.
  - rewrite map_elements_cons, elements_cons.
    destruct (isXmlElement n) as [e|]; [|apply IH].
    destruct (f e) as [a|] eqn:Hf; simpl; [|discriminate].
    destruct (map_elements f nodes) as [rest|]; simpl; [|discriminate].
    intros [= <-]. constructor; [exact Hf | now apply IH].
Qed.

Lemma parseBaseMapping_inv e b :
  parseBaseMapping e = Return b -> complete_binding e = true /\ b = base_of e.
Proof.
  intros Hb. destruct (complete_binding e) eqn:Hc.
  - rewrite (parseBaseMapping_complete e Hc) in Hb. split; congruence.
  - rewrite (parseBaseMapping_incomplete e Hc) in Hb. discriminate.
Qed.

Lemma parseControlMapping_inv e c :
  parseControlMapping e = Return c ->
  complete_binding e = true /\ has_child e "options" = true /\ c = control_of e.
Proof.
  unfold parseControlMapping, control_of. rewrite has_child_lookup.
  destruct (parseBaseMapping e) as [b|] eqn:Hb; simpl; [|discriminate].
  apply parseBaseMapping_inv in Hb as [Hc ->].
  destruct (xmlToObject (FromElement e) !! "options"); simpl; [|discriminate].
  intros [= <-]. auto.
Qed.

Lemma parseControlMapping_no_options e :
  has_child e "options" = false -> parseControlMapping e = Throw TypeError.
Proof.
  intros Hno. destruct (parseControlMapping e) as [c|err] eqn:Hp.
  - apply parseControlMapping_inv in Hp as (_ & Ho & _). congruence.
  - f_equal. exact (parseControlMapping_error e err Hp).
Qed.

Lemma parseOutputMapping_inv e o :
  parseOutputMapping e = Return o ->
  complete_binding e = true /\ o = output_of e.
Proof.
  unfold parseOutputMapping, output_of.
  destruct (parseBaseMapping e) as [b|] eqn:Hb; simpl; [|discriminate].
  apply parseBaseMapping_inv in Hb as [Hc ->]. intros [= <-]. auto.
Qed.

Lemma Forall2_fmap_eq {A B : Type} (g : A -> B) (l : list A) (l' : list B) :
  Forall2 (fun e a => a = g e) l l' -> l' = g <$> l.
Proof.
  induction 1 as [|x y l l' Hxy _ IH]; [reflexivity|].
  now rewrite fmap_cons, Hxy, IH.
Qed.

Lemma parseMidiMapping_inv doc m :
  parseMidiMapping doc = Return m ->
  exists preset ctrl cs os,
    root doc = Some preset /\
    xmlToObject (FromElement preset) !! "controller" = Some ctrl /\
    xmlToObject (FromChildren (children ctrl)) !! "controls" = Some cs /\
    xmlToObject (FromChildren (children ctrl)) !! "outputs" = Some os /\
    Forall (fun c => complete_binding c = true /\ has_child c "options" = true)
      (elements (children cs)) /\
    Forall (fun o => complete_binding o = true) (elements (children os)) /\
    m = {| info := info_of preset;
           controls := control_of <$> elements (children cs);
           outputs := output_of <$> elements (children os) |}.
Proof.
  intros Hm. destruct (root doc) as [preset|] eqn:Hroot;
    [|unfold parseMidiMapping in Hm; rewrite Hroot in Hm; discriminate].
  destruct (xmlToObject (FromElement preset) !! "controller") as [ctrl|] eqn:Hctrl;
    [|unfold parseMidiMapping in Hm; rewrite Hroot, Hctrl in Hm;
      simpl in Hm; rewrite lookup_empty in Hm; discriminate].
  rewrite (parseMidiMapping_controller _ _ _ Hroot Hctrl) in Hm. cbv zeta in Hm.
  destruct (xmlToObject (FromChildren (children ctrl)) !! "controls")
    as [cs|] eqn:Hcs; [|discriminate]. simpl prop in Hm. simpl bind in Hm at 1.
  destruct (map_elements parseControlMapping (children cs)) as [cms|] eqn:Hcms;
    [|discriminate]. simpl bind in Hm at 1.
  destruct (xmlToObject (FromChildren (children ctrl)) !! "outputs")
    as [os|] eqn:Hos; [|discriminate]. simpl prop in Hm. simpl bind in Hm at 1.
  destruct (map_elements parseOutputMapping (children os)) as [oms|] eqn:Homs;
    [|discriminate]. simpl in Hm. injection Hm as <-.
  apply map_elements_inv in Hcms, Homs.
  exists preset, ctrl, cs, os.
  do 4 (split; [first [reflexivity | assumption]|]). split; [|split].
  - eapply Forall2_Forall_l; [exact Hcms|]. apply Forall_forall.
    intros a _ c Hc. apply parseControlMapping_inv in Hc. tauto.
  - eapply Forall2_Forall_l; [exact Homs|]. apply Forall_forall.
    intros a _ o Ho. apply parseOutputMapping_inv in Ho. tauto.
  - f_equal.
    + apply Forall2_fmap_eq. eapply Forall2_impl; [exact Hcms|].
      intros c a Hc. apply parseControlMapping_inv in Hc. tauto.
    + apply Forall2_fmap_eq. eapply Forall2_impl; [exact Homs|].
      intros o a Ho. apply parseOutputMapping_inv in Ho. tauto.
Qed.

Lemma parseMidiMapping_well_formed doc :
  well_formed doc = true -> exists m, parseMidiMapping doc = Return m.
Proof.
  unfold well_formed.
  destruct (root doc) as [preset|] eqn:Hroot; [|discriminate].
  destruct (xmlToObject (FromElement preset) !! "controller") as [ctrl|] eqn:Hctrl;
    [|discriminate]. cbv zeta.
  destruct (xmlToObject (FromChildren (children ctrl)) !! "controls")
    as [cs|] eqn:Hcs; [|discriminate].
  destruct (xmlToObject (FromChildren (children ctrl)) !! "outputs")
    as [os|] eqn:Hos; [|discriminate].
  rewrite andb_true_iff, !forallb_forall. intros [Hc Ho].
  rewrite (parseMidiMapping_controller _ _ _ Hroot Hctrl). cbv zeta.
  rewrite Hcs, Hos. simpl prop. simpl bind at 1.
  rewrite (map_elements_ok parseControlMapping control_of).
  - simpl bind at 1. simpl bind at 1.
    rewrite (map_elements_ok parseOutputMapping output_of); [simpl; eauto|].
    intros o Hin. apply parseOutputMapping_complete.
    apply Ho. now apply list_elem_of_In.
  - intros c Hin. apply list_elem_of_In, Hc in Hin.
    apply andb_true_iff in Hin as [H1 H2].
    now apply parseControlMapping_complete.
Qed.

Lemma parseMidiMapping_returns doc m :
  parseMidiMapping doc = Return m -> well_formed doc = true.
Proof.
  intros Hm.
  apply parseMidiMapping_inv in Hm
    as (preset & ctrl & cs & os & Hroot & Hctrl & Hcs & Hos & Hc & Ho & _).
  unfold well_formed. rewrite Hroot, Hctrl. cbv zeta. rewrite Hcs, Hos.
  apply andb_true_iff. split; apply forallb_forall.
  - intros c Hin. rewrite Forall_forall in Hc.
    apply list_elem_of_In, Hc in Hin as [H1 H2]. now rewrite H1, H2.
  - intros o Hin. rewrite Forall_forall in Ho.
    now apply list_elem_of_In, Ho in Hin.
Qed.

Lemma parseMidiMapping_ill_formed doc :
  well_formed doc = false -> parseMidiMapping doc = Throw TypeError.
Proof.
  intros Hwf. destruct (parseMidiMapping doc) as [m|err] eqn:Hm.
  - apply parseMidiMapping_returns in Hm. congruence.
  - f_equal. exact (parseMidiMapping_error doc err Hm).
Qed.

Lemma parse_inv parseXml src js this :
  parse parseXml src js = Return this ->
  exists doc, parseXml src = Return doc /\
              parseMidiMapping doc = Return (midiMapping this) /\
              jsMappingSrc this = js.
Proof.
  unfold parse. destruct (parseXml src) as [doc|]; simpl; [|discriminate].
  destruct (parseMidiMapping doc) as [m|] eqn:Hm; simpl; [|discriminate].
  intros [= <-]. exists doc. split; [reflexivity|]. split; [exact Hm|reflexivity].
Qed.

(** X1: [parse] returns a mapping exactly when the document parser returns
    a document of the shape [well_formed]; the [info] element, the tag names
    of the binding elements and the script text play no part in it. *)
Theorem parse_returns_iff_well_formed :
  forall (parseXml : string -> Completion XmlDocument) (src : string)
         (js : option string),
    (exists this, parse parseXml src js = Return this) <->
    (exists doc, parseXml src = Return doc /\ well_formed doc = true).
Proof.
  intros parseXml src js. split.
  - intros [this Hp]. apply parse_inv in Hp as (doc & Hdoc & Hm & _).
    exists doc. split; [exact Hdoc | exact (parseMidiMapping_returns _ _ Hm)].
  - intros (doc & Hdoc & Hwf).
    destruct (parseMidiMapping_well_formed doc Hwf) as [m Hm].
    exists {| midiMapping := m; jsMappingSrc := js |}.
    rewrite (parse_unfold _ _ _ _ Hdoc), Hm. reflexivity.
Qed.

(** X2: an exception of [parse] is either the document parser's own,
    passed on unchanged, or the [TypeError] of a document that is not of
    the shape [well_formed]; [parse] raises nothing else. *)
Theorem parse_exception_origin :
  forall (parseXml : string -> Completion XmlDocument) (src : string)
         (js : option string) (e : JsError),
    parse parseXml src js = Throw e ->
    parseXml src = Throw e \/
    (e = TypeError /\
     exists doc, parseXml src = Return doc /\ well_formed doc = false).
Proof.
  intros parseXml src js e. unfold parse.
  destruct (parseXml src) as [doc|e'] eqn:Hdoc; simpl.
  - destruct (parseMidiMapping doc) as [m|e''] eqn:Hm; simpl; [discriminate|].
    intros [= <-]. right. split; [exact (parseMidiMapping_error _ _ Hm)|].
    exists doc. split; [reflexivity|].
    destruct (well_formed doc) eqn:Hwf; [|reflexivity].
    destruct (parseMidiMapping_well_formed doc Hwf) as [m Hm']. congruence.
  - intros [= <-]. now left.
Qed.

(** X3: an element under [controls] without an [options] child makes
    [parse] fail with a [TypeError], even when its four required children
    are there: [childs.options.children] is read unguarded. *)
Theorem parse_control_needs_options :
  forall (parseXml : string -> Completion XmlDocument) (src : string)
         (js : option string) (doc : XmlDocument)
         (preset ctrl cs c : XmlElement),
    parseXml src = Return doc ->
    root doc = Some preset ->
    xmlToObject (FromElement preset) !! "controller" = Some ctrl ->
    xmlToObject (FromChildren (children ctrl)) !! "controls" = Some cs ->
    c ∈ elements (children cs) ->
    has_child c "options" = false ->
    parse parseXml src js = Throw TypeError.
Proof.
  intros parseXml src js doc preset ctrl cs c Hdoc Hroot Hctrl Hcs Hc Hno.
  rewrite (parse_unfold _ _ _ _ Hdoc).
  rewrite (parseMidiMapping_controller _ _ _ Hroot Hctrl). cbv zeta.
  rewrite Hcs. simpl prop. simpl bind at 1.
  rewrite (map_elements_throw parseControlMapping parseControlMapping_error
             (children cs) c Hc); [reflexivity|].
  now apply parseControlMapping_no_options.
Qed.

(** X4: a parsed mapping never carries a threshold or a feedback value:
    [minimum], [maximum], [on] and [off] of every output binding are
    [undefined], whatever the [output] elements of the document hold. *)
Theorem parse_drops_thresholds :
  forall (parseXml : string -> Completion XmlDocument) (src : string)
         (js : option string) (this : MixxxControllerMapping)
         (o : OutputMapping),
    parse parseXml src js = Return this ->
    o ∈ outputs (midiMapping this) ->
    minimum o = None /\ maximum o = None /\ on o = None /\ off o = None.
Proof.
  intros parseXml src js this o Hp Ho.
  apply parse_inv in Hp as (doc & _ & Hm & _).
  apply parseMidiMapping_inv in Hm
    as (preset & ctrl & cs & os & _ & _ & _ & _ & _ & _ & Hm).
  rewrite Hm in Ho. simpl in Ho.
  apply list_elem_of_fmap in Ho as (e & -> & _). repeat split.
Qed.

(** X5: a [controller] element must hold both a [controls] and an
    [outputs] child: without either, [parse] fails with a [TypeError]. *)
Theorem parse_needs_both_sections :
  forall (parseXml : string -> Completion XmlDocument) (src : string)
         (js : option string) (doc : XmlDocument) (preset ctrl : XmlElement),
    parseXml src = Return doc ->
    root doc = Some preset ->
    xmlToObject (FromElement preset) !! "controller" = Some ctrl ->
    has_child ctrl "controls" = false \/ has_child ctrl "outputs" = false ->
    parse parseXml src js = Throw TypeError.
Proof.
  intros parseXml src js doc preset ctrl Hdoc Hroot Hctrl Hmissing.
  rewrite (parse_unfold _ _ _ _ Hdoc).
  rewrite (parseMidiMapping_ill_formed doc); [reflexivity|].
  unfold well_formed. rewrite Hroot, Hctrl. cbv zeta.
  change (xmlToObject (FromChildren (children ctrl)))
    with (xmlToObject (FromChildren (source_nodes (FromElement ctrl)))).
  assert (Hsame : forall k,
             xmlToObject (FromChildren (children ctrl)) !! k = None <->
             has_child ctrl k = false).
  { intros k. unfold has_child. rewrite bool_decide_eq_false.
    rewrite <- (xmlToObject_keys (FromChildren (children ctrl)) k).
    rewrite eq_None_not_Some. reflexivity. }
  simpl source_nodes. destruct Hmissing as [Hno|Hno]; apply Hsame in Hno.
  - now rewrite Hno.
  - rewrite Hno. now destruct (_ !! "controls").
Qed.

(** X6: the metadata never makes [parse] fail.  Without an [info] child of
    the root, [info] is the empty object; with one, [name], [author] and
    [description] are the texts of its children of those names, each
    [undefined] when the child is missing. *)
Theorem parse_info :
  forall (parseXml : string -> Completion XmlDocument) (src : string)
         (js : option string) (this : MixxxControllerMapping),
    parse parseXml src js = Return this ->
    exists doc preset,
      parseXml src = Return doc /\ root doc = Some preset /\
      (has_child preset "info" = false ->
       mapping_info this =
       {| info_name := None; author := None; description := None |}) /\
      (forall i, xmlToObject (FromElement preset) !! "info" = Some i ->
         mapping_info this =
         {| info_name :=
              if has_child i "name" then Some (field i "name") else None;
            author :=
              if has_child i "author" then Some (field i "author") else None;
            description :=
              if has_child i "description" then Some (field i "description")
              else None |}).
Proof.
  intros parseXml src js this Hp.
  apply parse_inv in Hp as (doc & Hdoc & Hm & _).
  apply parseMidiMapping_inv in Hm
    as (preset & ctrl & cs & os & Hroot & _ & _ & _ & _ & _ & Hm).
  exists doc, preset. split; [exact Hdoc|]. split; [exact Hroot|].
  unfold mapping_info. rewrite Hm. simpl info. unfold info_of. split.
  - intros Hno. now rewrite (has_child_false _ _ Hno).
  - intros i Hi. rewrite Hi. unfold parseMappingInfo, field.
    rewrite !has_child_lookup.
    destruct (xmlToObject (FromElement i) !! "name");
      destruct (xmlToObject (FromElement i) !! "author");
      destruct (xmlToObject (FromElement i) !! "description"); reflexivity.
Qed.

End ParserInversion.

(** ** The parser on documents of the standard shape *)

Section StandardShape.

Context {flattener : Flattener}.

Lemma element_names_elements nodes :
  element_names nodes = name <$> elements nodes.
Proof.
  induction nodes as [|n nodes IH]; [reflexivity|].
  rewrite element_names_cons, elements_cons.
  destruct (isXmlElement n); [now rewrite fmap_cons, IH | exact IH].
Qed.

Lemma element_eta (e : XmlElement) :
  {| name := name e; children := children e |} = e.
Proof. now destruct e. Qed.

Lemma elements_node_of (l : list XmlElement) : elements (node_of <$> l) = l.
Proof.
  induction l as [|e l IH]; [reflexivity|].
  rewrite fmap_cons, elements_cons. simpl. now rewrite element_eta, IH.
Qed.

Lemma lookup_the_only x k e :
  e ∈ elements (source_nodes x) -> name e = k ->
  (forall e', e' ∈ elements (source_nodes x) -> name e' = k -> e' = e) ->
  xmlToObject x !! k = Some e.
Proof.
  intros Hin Hname Honly.
  assert (Hsome : is_Some (xmlToObject x !! k)).
  { apply xmlToObject_keys. rewrite element_names_elements, <- Hname.
    now apply list_elem_of_fmap_2. }
  destruct Hsome as [e' He']. rewrite He'. f_equal.
  apply xmlToObject_values in He' as [Hn Hi]. now apply Honly.
Qed.

Lemma text_leaf tag content : text (leaf_element tag content) = trim content.
Proof. unfold text. simpl. now rewrite append_empty_r. Qed.

Lemma elements_app l l' : elements (l ++ l') = elements l ++ elements l'.
Proof.
  induction l as [|n l IH]; [reflexivity|].
  change ((n :: l) ++ l') with (n :: (l ++ l')).
  rewrite !elements_cons, IH. now destruct (isXmlElement n).
Qed.

Lemma elements_no_element junk : no_element junk = true -> elements junk = [].
Proof.
  induction junk as [|n junk IH]; [reflexivity|].
  rewrite elements_cons. simpl no_element.
  destruct (isXmlElement n); [discriminate|exact IH].
Qed.

Lemma elements_interleave junk nodes :
  no_element junk = true -> elements (interleave junk nodes) = elements nodes.
Proof.
  intros Hjunk. induction nodes as [|n nodes IH].
  - now apply elements_no_element.
  - change (interleave junk (n :: nodes))
      with (junk ++ n :: interleave junk nodes).
    rewrite elements_app, (elements_no_element junk Hjunk), !elements_cons, IH.
    reflexivity.
Qed.

Lemma elements_spaced junk tag nodes :
  no_element junk = true ->
  elements (children (spaced junk tag nodes)) = elements nodes.
Proof. intros Hjunk. exact (elements_interleave junk nodes Hjunk). Qed.

Lemma first_element_head nodes : first_element nodes = head (elements nodes).
Proof.
  induction nodes as [|n nodes IH]; [reflexivity|].
  rewrite elements_cons. simpl first_element.
  now destruct (isXmlElement n).
Qed.

Lemma lookup_row e row rest field_name content :
  starts_with_row e row rest ->
  In (leaf_element field_name content)
    [leaf_element "group" (text_group row); leaf_element "key" (text_key row);
     leaf_element "status" (text_status row);
     leaf_element "midino" (text_midino row)] ->
  xmlToObject (FromElement e) !! field_name
  = Some (leaf_element field_name content).
Proof.
  intros [Helems Hrest] Hin. apply lookup_the_only.
  - unfold source_nodes. rewrite Helems.
    apply list_elem_of_In. simpl in *. tauto.
  - reflexivity.
  - unfold source_nodes. rewrite Helems. intros e' He' Hname.
    assert (Hreq : field_name ∈ required_fields).
    { apply list_elem_of_In. simpl in *.
      destruct Hin as [H|[H|[H|[H|[]]]]]; injection H as <- _; tauto. }
    apply list_elem_of_In in He'. simpl in *.
    destruct He' as [<-|[<-|[<-|[<-|He']]]];
      try (destruct Hin as [H|[H|[H|[H|[]]]]];
           simpl in Hname; injection H as <- <-;
           first [reflexivity | discriminate Hname]).
    exfalso. apply (Hrest _ Hreq). rewrite <- Hname.
    apply list_elem_of_fmap_2. now apply list_elem_of_In.
Qed.

Lemma base_of_row e row rest :
  starts_with_row e row rest ->
  complete_binding e = true /\ base_of e = read_base row.
Proof.
  intros Hrow.
  assert (Hg := lookup_row e row rest "group" (text_group row) Hrow
                  ltac:(simpl; tauto)).
  assert (Hk := lookup_row e row rest "key" (text_key row) Hrow
                  ltac:(simpl; tauto)).
  assert (Hs := lookup_row e row rest "status" (text_status row) Hrow
                  ltac:(simpl; tauto)).
  assert (Hm := lookup_row e row rest "midino" (text_midino row) Hrow
                  ltac:(simpl; tauto)).
  split.
  - unfold complete_binding, required_fields.
    apply forallb_forall. intros r Hr. rewrite has_child_lookup.
    simpl in Hr. destruct Hr as [<-|[<-|[<-|[<-|[]]]]].
    + now rewrite Hg.
    + now rewrite Hk.
    + now rewrite Hs.
    + now rewrite Hm.
  - unfold base_of, read_base, field. rewrite Hg, Hk, Hs, Hm. simpl from_option.
    now rewrite !text_leaf.
Qed.

Lemma element_names_options (names : list string) :
  element_names ((fun n => el n []) <$> names) = names.
Proof.
  induction names as [|n names IH]; [reflexivity|].
  rewrite fmap_cons, element_names_cons. simpl. now rewrite IH.
Qed.

Lemma control_starts_with_row junk row names :
  no_element junk = true ->
  starts_with_row (control_element junk (row, names)) row
    [options_element junk names].
Proof.
  intros Hjunk. split.
  - unfold control_element. now rewrite (elements_spaced junk _ _ Hjunk).
  - intros r Hr Hin. apply list_elem_of_In in Hr, Hin. simpl in Hr, Hin.
    destruct Hin as [<-|[]]. intuition discriminate.
Qed.

Lemma control_of_element junk row :
  no_element junk = true ->
  complete_binding (control_element junk row) = true /\
  has_child (control_element junk row) "options" = true /\
  control_of (control_element junk row) = read_control row.
Proof.
  intros Hjunk. destruct row as [row names].
  pose proof (control_starts_with_row junk row names Hjunk) as Hrow.
  destruct (base_of_row _ _ _ Hrow) as [Hc Hb].
  assert (Ho : xmlToObject (FromElement (control_element junk (row, names)))
               !! "options" = Some (options_element junk names)).
  { apply lookup_the_only.
    - unfold source_nodes. rewrite (proj1 Hrow).
      apply list_elem_of_In. simpl. tauto.
    - reflexivity.
    - unfold source_nodes. rewrite (proj1 Hrow). intros e' He' Hname.
      apply list_elem_of_In in He'. simpl in He'.
      destruct He' as [<-|[<-|[<-|[<-|[<-|[]]]]]];
        first [reflexivity | discriminate Hname]. }
  split; [exact Hc|]. split.
  - now rewrite has_child_lookup, Ho.
  - unfold control_of, read_control. rewrite Hb, Ho. simpl from_option.
    f_equal. simpl snd.
    rewrite element_names_elements, (elements_interleave junk _ Hjunk).
    now rewrite <- element_names_elements, element_names_options.
Qed.

Lemma output_of_element junk more row :
  no_element junk = true ->
  (forall r, r ∈ required_fields -> r ∉ element_names more) ->
  complete_binding (output_element junk more row) = true /\
  output_of (output_element junk more row) = read_output row.
Proof.
  intros Hjunk Hmore.
  assert (Hrow : starts_with_row (output_element junk more row) row
                   (elements more)).
  { split.
    - unfold output_element.
      rewrite (elements_spaced junk _ _ Hjunk), elements_app. reflexivity.
    - intros r Hr. rewrite <- element_names_elements. now apply Hmore. }
  destruct (base_of_row _ _ _ Hrow) as [Hc Hb].
  split; [exact Hc|]. unfold output_of, read_output. now rewrite Hb.
Qed.

Lemma lookup_pair junk (x : XmlSource) (first second : XmlElement) k e :
  no_element junk = true ->
  source_nodes x = interleave junk [node_of first; node_of second] ->
  name first <> name second ->
  (e = first \/ e = second) -> name e = k ->
  xmlToObject x !! k = Some e.
Proof.
  intros Hjunk Hnodes Hne He Hk.
  assert (Helems : elements (source_nodes x) = [first; second]).
  { rewrite Hnodes, (elements_interleave junk _ Hjunk).
    exact (elements_node_of [first; second]). }
  apply lookup_the_only.
  - rewrite Helems. apply list_elem_of_In. simpl.
    destruct He as [->| ->]; tauto.
  - exact Hk.
  - rewrite Helems. intros e' He' Hname.
    apply list_elem_of_In in He'. simpl in He'.
    destruct He' as [<-|[<-|[]]]; destruct He as [->| ->];
      congruence.
Qed.

(** X7: a document of the standard shape is parsed to the table it was
    written from, white space and comments between the elements being of
    no account.  For every list of control rows (four texts and option
    names) and of output rows, whatever nodes other than elements stand
    between the elements, whatever else the [output] elements hold beside
    the four required children and whatever the [info] element holds,
    [parse] returns one binding per row, in order, with [group] and [key]
    the trimmed texts, [status] and [midino] what [parseInt] reads, the
    options as listed and no threshold. *)
Theorem parse_standard_document :
  forall (parseXml : string -> Completion XmlDocument) (src : string)
         (js : option string) (junk info_nodes : list XmlNode)
         (cs : list (BindingText * list string)) (os : list BindingText)
         (more : list XmlNode),
    parseXml src = Return (standard_document junk info_nodes cs os more) ->
    no_element junk = true ->
    (forall r, r ∈ required_fields -> r ∉ element_names more) ->
    parse parseXml src js =
    Return {| midiMapping :=
                {| info := parseMappingInfo
                             {| name := "info"; children := info_nodes |};
                   controls := read_control <$> cs;
                   outputs := read_output <$> os |};
              jsMappingSrc := js |}.
Proof.
  intros parseXml src js junk info_nodes cs os more Hdoc Hjunk Hmore.
  rewrite (parse_unfold _ _ _ _ Hdoc).
  set (ctrl := standard_controller junk cs os more).
  set (preset := standard_preset junk info_nodes cs os more).
  set (i := {| name := "info"; children := info_nodes |}).
  assert (Hroot : root (standard_document junk info_nodes cs os more)
                  = Some preset).
  { change (root (standard_document junk info_nodes cs os more))
      with (first_element (interleave junk [node_of preset])).
    rewrite first_element_head, (elements_interleave junk _ Hjunk).
    reflexivity. }
  assert (Hpair : forall k e, (e = i \/ e = ctrl) -> name e = k ->
                              xmlToObject (FromElement preset) !! k = Some e).
  { intros k e He Hk.
    exact (lookup_pair junk (FromElement preset) i ctrl k e Hjunk eq_refl
             ltac:(discriminate) He Hk). }
  assert (Hctrl := Hpair "controller" ctrl (or_intror eq_refl) eq_refl).
  assert (Hinfo := Hpair "info" i (or_introl eq_refl) eq_refl).
  set (csec := spaced junk "controls"
                 (node_of <$> (control_element junk <$> cs))).
  set (osec := spaced junk "outputs"
                 (node_of <$> (output_element junk more <$> os))).
  assert (Hsections : forall k e, (e = csec \/ e = osec) -> name e = k ->
            xmlToObject (FromChildren (children ctrl)) !! k = Some e).
  { intros k e He Hk.
    exact (lookup_pair junk (FromChildren (children ctrl)) csec osec k e
             Hjunk eq_refl ltac:(discriminate) He Hk). }
  assert (Hcs := Hsections "controls" csec (or_introl eq_refl) eq_refl).
  assert (Hos := Hsections "outputs" osec (or_intror eq_refl) eq_refl).
  rewrite (parseMidiMapping_controller _ _ _ Hroot Hctrl). cbv zeta.
  rewrite Hcs, Hos. simpl prop. simpl bind at 1.
  unfold info_of. rewrite Hinfo.
  assert (Hcelems :
            elements (interleave junk
                        (node_of <$> (control_element junk <$> cs)))
            = control_element junk <$> cs)
    by now rewrite (elements_interleave junk _ Hjunk), elements_node_of.
  assert (Hoelems :
            elements (interleave junk
                        (node_of <$> (output_element junk more <$> os)))
            = output_element junk more <$> os)
    by now rewrite (elements_interleave junk _ Hjunk), elements_node_of.
  rewrite (map_elements_ok parseControlMapping control_of).
  - simpl bind at 1. simpl bind at 1.
    rewrite (map_elements_ok parseOutputMapping output_of).
    + simpl bind. rewrite Hcelems, Hoelems, <- !list_fmap_compose.
      do 3 f_equal.
      * apply list_fmap_ext. intros j row _. simpl.
        now destruct (control_of_element junk row Hjunk) as (_ & _ & ->).
      * apply list_fmap_ext. intros j row _. simpl.
        now destruct (output_of_element junk more row Hjunk Hmore) as (_ & ->).
    + intros o Ho. rewrite Hoelems in Ho.
      apply list_elem_of_fmap in Ho as (row & -> & _).
      destruct (output_of_element junk more row Hjunk Hmore) as [Hc _].
      now apply parseOutputMapping_complete.
  - intros c Hc. rewrite Hcelems in Hc.
    apply list_elem_of_fmap in Hc as (row & -> & _).
    destruct (control_of_element junk row Hjunk) as (H1 & H2 & _).
    now apply parseControlMapping_complete.
Qed.

End StandardShape.

(** ** The extra parser properties on sample documents *)

Lemma parse_exception_origin_witness :
  parsed_as no_controller_document "<MixxxControllerPreset>"
  = Throw (XmlError "not the sample text") \/
  (XmlError "not the sample text" = TypeError /\
   exists doc,
     parsed_as no_controller_document "<MixxxControllerPreset>" = Return doc
     /\ well_formed doc = false).
Proof.
  apply (parse_exception_origin (parsed_as no_controller_document)
           "<MixxxControllerPreset>" None).
  vm_compute. reflexivity.
Defined.

Lemma parse_control_needs_options_witness :
  parse (parsed_as no_options_document) (source_of no_options_document) None
  = Throw TypeError.
Proof.
  refine (parse_control_needs_options
            (parsed_as no_options_document) (source_of no_options_document)
            None no_options_document
            (preset_element [no_options_control] [])
            (controller_element [no_options_control] [])
            (section_element "controls" [no_options_control])
            no_options_control _ _ _ _ _ _).
  - vm_compute. reflexivity.
  - vm_compute. reflexivity.
  - vm_compute. reflexivity.
  - vm_compute. reflexivity.
  - vm_compute. left.
  - vm_compute. reflexivity.
Defined.

Lemma parse_drops_thresholds_witness :
  minimum (read_output threshold_row) = None /\
  maximum (read_output threshold_row) = None /\
  on (read_output threshold_row) = None /\
  off (read_output threshold_row) = None.
Proof.
  refine (parse_drops_thresholds
            (parsed_as threshold_document) (source_of threshold_document) None
            {| midiMapping :=
                 {| info := {| info_name := None; author := None;
                               description := None |};
                    controls := [];
                    outputs := [read_output threshold_row] |};
               jsMappingSrc := None |}
            (read_output threshold_row) _ _).
  - vm_compute. reflexivity.
  - simpl. left.
Defined.

Lemma parse_needs_both_sections_witness :
  parse (parsed_as no_outputs_document) (source_of no_outputs_document) None
  = Throw TypeError.
Proof.
  refine (parse_needs_both_sections
            (parsed_as no_outputs_document) (source_of no_outputs_document)
            None no_outputs_document no_outputs_preset no_outputs_controller
            _ _ _ (or_intror _)).
  - vm_compute. reflexivity.
  - vm_compute. reflexivity.
  - vm_compute. reflexivity.
  - vm_compute. reflexivity.
Defined.

Lemma parse_info_witness :
  mapping_info
    {| midiMapping :=
         {| info := {| info_name := Some "Demo"; author := None;
                       description := None |};
            controls := [read_control (threshold_row, ["normal"])];
            outputs := [] |};
       jsMappingSrc := None |}
  = {| info_name := Some "Demo"; author := None; description := None |}.
Proof.
  destruct (parse_info
              (parsed_as
                 (standard_document line_break [leaf "name" "Demo"]
                    [(threshold_row, ["normal"])] [] []))
              (source_of
                 (standard_document line_break [leaf "name" "Demo"]
                    [(threshold_row, ["normal"])] [] []))
              None
              {| midiMapping :=
                   {| info := {| info_name := Some "Demo"; author := None;
                                 description := None |};
                      controls := [read_control (threshold_row, ["normal"])];
                      outputs := [] |};
                 jsMappingSrc := None |})
    as (doc & preset & Hdoc & Hroot & _ & Hinfo).
  - vm_compute. reflexivity.
  - vm_compute in Hdoc. injection Hdoc as <-.
    vm_compute in Hroot. injection Hroot as <-.
    rewrite (Hinfo {| name := "info"; children := [leaf "name" "Demo"] |}).
    + vm_compute. reflexivity.
    + vm_compute. reflexivity.
Defined.

Lemma parse_standard_document_witness :
  parse (parsed_as threshold_document) (source_of threshold_document) None
  = Return
      {| midiMapping :=
           {| info := {| info_name := None; author := None;
                         description := None |};
              controls := [];
              outputs :=
                [{| output_base := {| group := "[Channel1]";
                                      key := "play_indicator";
                                      status := Num 0x90;
                                      midino := Num 0x20 |};
                    minimum := None; maximum := None;
                    on := None; off := None |}] |};
         jsMappingSrc := None |}.
Proof.
  refine (parse_standard_document
            (parsed_as threshold_document) (source_of threshold_document) None
            line_break [] [] [threshold_row] threshold_nodes _ _ _).
  - vm_compute. reflexivity.
  - reflexivity.
  - intros r Hr Hin. apply list_elem_of_In in Hr, Hin. simpl in Hr, Hin.
    intuition (subst; discriminate).
Defined.

(** ** The decoder: when it returns, what it reads *)

Lemma find_index {A : Type} (f : A -> bool) (l : list A) (c : A) :
  List.find f l = Some c ->
  exists i, l !! i = Some c /\ f c = true /\
            forall j c', (j < i)%nat -> l !! j = Some c' -> f c' = false.
Proof.
  induction l as [|x l IH]; [discriminate|]. simpl.
  destruct (f x) eqn:Hx.
  - intros [= <-]. exists 0%nat. split; [reflexivity|]. split; [exact Hx|].
    intros j c' Hj. lia.
  - intros Hfind. destruct (IH Hfind) as (i & Hi & Hc & Hbefore).
    exists (S i). split; [exact Hi|]. split; [exact Hc|].
    intros [|j] c' Hj Hl; [simpl in Hl; congruence|].
    apply (Hbefore j c'); [lia | exact Hl].
Qed.

Lemma find_unselected {A : Type} (f : A -> bool) (pre post : list A) (b : A) :
  f b = false -> List.find f (pre ++ b :: post) = List.find f (pre ++ post).
Proof.
  intros Hb. induction pre as [|x pre IH]; simpl.
  - now rewrite Hb.
  - now rewrite IH.
Qed.

Lemma selects_base msg (c c' : ControlMapping) :
  control_base c = control_base c' -> selects msg c = selects msg c'.
Proof. unfold selects. now intros ->. Qed.

Lemma find_selects_bases msg (l l' : list ControlMapping) :
  control_base <$> l = control_base <$> l' ->
  control_base <$> List.find (selects msg) l
  = control_base <$> List.find (selects msg) l'.
Proof.
  revert l'. induction l as [|c l IH]; intros [|c' l'] Heq;
    try discriminate; [reflexivity|].
  rewrite !fmap_cons in Heq. injection Heq as Hc Hl. simpl.
  rewrite (selects_base msg c c' Hc).
  destruct (selects msg c'); [simpl; now rewrite Hc | now apply IH].
Qed.

(** X8: [fromMidi] returns, instead of throwing, exactly when some
    control binding matches the message's status and first data byte.
    What it returns holds at most one action, and what it throws is a
    [TypeError]. *)
Theorem fromMidi_returns_iff_mapped :
  forall (this : MixxxControllerMapping) (msg : midi.MidiMessage),
    ((exists acts, fromMidi this msg = Return acts) <->
     (exists c, In c (controls (midiMapping this)) /\ selects msg c = true)) /\
    (forall acts, fromMidi this msg = Return acts -> (length acts <= 1)%nat) /\
    (forall e, fromMidi this msg = Throw e -> e = TypeError).
Proof.
  intros this msg.
  destruct (List.find (selects msg) (controls (midiMapping this)))
    as [c|] eqn:Hfind.
  - rewrite (fromMidi_selected this msg c Hfind).
    apply find_some in Hfind as [Hin Hsel]. split; [|split].
    + split; [intros _; now exists c | intros _; eauto].
    + intros acts [= <-]. destruct (String.eqb (key c) "play"); simpl; lia.
    + discriminate.
  - assert (Hthrow : fromMidi this msg = Throw TypeError)
      by (unfold fromMidi; now rewrite Hfind).
    rewrite Hthrow. split; [|split].
    + split; [intros [acts [=]]|].
      intros (c & Hin & Hsel).
      rewrite (find_none _ _ Hfind c Hin) in Hsel. discriminate.
    + discriminate.
    + now intros e [= <-].
Qed.

(** X9: every action [fromMidi] returns is justified by the table: it is
    the only action returned, the earliest matching binding has the key
    [play], the action is a press of [play] whose deck is resolved from
    that binding's group and whose [down] is whether the second data byte
    is positive. *)
Theorem fromMidi_action_justified :
  forall (this : MixxxControllerMapping) (msg : midi.MidiMessage)
         (acts : list action.Action) (a : action.Action),
    fromMidi this msg = Return acts ->
    In a acts ->
    exists i c,
      controls (midiMapping this) !! i = Some c /\
      selects msg c = true /\
      (forall j c', (j < i)%nat -> controls (midiMapping this) !! j = Some c' ->
                    selects msg c' = false) /\
      key c = "play" /\
      a = action.Press action.Play (deckFromGroup (group c))
            (gt_zero (midi.data msg !! 1%nat)) /\
      acts = [a].
Proof.
  intros this msg acts a Hret Ha.
  destruct (List.find (selects msg) (controls (midiMapping this)))
    as [c|] eqn:Hfind;
    [|unfold fromMidi in Hret; rewrite Hfind in Hret; discriminate].
  rewrite (fromMidi_selected this msg c Hfind) in Hret.
  destruct (find_index _ _ _ Hfind) as (i & Hi & Hsel & Hbefore).
  exists i, c. split; [exact Hi|]. split; [exact Hsel|]. split; [exact Hbefore|].
  destruct (String.eqb_spec (key c) "play") as [Hkey|Hkey];
    injection Hret as <-; [|destruct Ha].
  destruct Ha as [<-|[]]. auto.
Qed.

(** X10: [fromMidi] reads of the mapping only the group, key, status and
    note of the control bindings: two mappings whose control tables agree
    on those decode every message alike, whatever their options, output
    bindings, metadata and script source. *)
Theorem fromMidi_reads_bases_only :
  forall (this that : MixxxControllerMapping) (msg : midi.MidiMessage),
    control_base <$> controls (midiMapping this)
    = control_base <$> controls (midiMapping that) ->
    fromMidi this msg = fromMidi that msg.
Proof.
  intros this that msg Heq. apply (find_selects_bases msg) in Heq.
  unfold fromMidi.
  destruct (List.find (selects msg) (controls (midiMapping this))) as [c|];
    destruct (List.find (selects msg) (controls (midiMapping that))) as [c'|];
    simpl in Heq; try discriminate; [|reflexivity].
  injection Heq as Heq. simpl. now rewrite Heq.
Qed.

(** X11: a binding whose status or note is [NaN], as [parse] makes of a
    text that is not a number, is never selected: removing it from the
    table changes the decoding of no message. *)
Theorem fromMidi_ignores_NaN_binding :
  forall (this : MixxxControllerMapping) (pre post : list ControlMapping)
         (b : ControlMapping) (msg : midi.MidiMessage),
    controls (midiMapping this) = pre ++ b :: post ->
    status b = NaN \/ midino b = NaN ->
    fromMidi this msg = fromMidi (with_controls this (pre ++ post)) msg.
Proof.
  intros this pre post b msg Hcontrols Hnan.
  assert (Hb : selects msg b = false).
  { unfold selects. destruct Hnan as [-> | ->]; [reflexivity|].
    destruct (midi.data msg !! 0%nat); simpl; apply andb_false_r. }
  unfold fromMidi. simpl. rewrite Hcontrols.
  now rewrite (find_unselected _ pre post b Hb).
Qed.

(** X12: a message without data bytes (a one-byte MIDI message such as a
    timing clock) matches no binding, so [fromMidi] throws a [TypeError]
    for it whatever the mapping; and a message with a single data byte is
    never decoded as a press with [down] true. *)
Theorem fromMidi_short_message :
  forall (this : MixxxControllerMapping) (st d1 : number),
    fromMidi this {| midi.status := st; midi.data := [] |} = Throw TypeError /\
    forall acts a,
      fromMidi this {| midi.status := st; midi.data := [d1] |} = Return acts ->
      In a acts ->
      exists deck, a = action.Press action.Play deck false.
Proof.
  intros this st d1. split.
  - unfold fromMidi.
    assert (Hnone : forall l,
               List.find (selects {| midi.status := st; midi.data := [] |}) l
               = None).
    { induction l as [|c l IH]; [reflexivity|]. simpl.
      unfold selects at 1. simpl. now rewrite andb_false_r. }
    now rewrite Hnone.
  - intros acts a Hret Ha. unfold fromMidi in Hret.
    destruct (List.find _ (controls (midiMapping this))) as [c|];
      simpl in Hret; [|discriminate].
    destruct (String.eqb (key c) "play"); injection Hret as <-;
      [|destruct Ha].
    destruct Ha as [<-|[]]. eauto.
Qed.

Lemma fromMidi_action_justified_witness :
  exists i c,
    [play_binding []] !! i = Some c /\
    selects (note_on 0x7F) c = true /\
    (forall j c', (j < i)%nat -> [play_binding []] !! j = Some c' ->
                  selects (note_on 0x7F) c' = false) /\
    key c = "play" /\
    action.Press action.Play (Some (Num 1)) true =
    action.Press action.Play (deckFromGroup (group c))
      (gt_zero (midi.data (note_on 0x7F) !! 1%nat)) /\
    [action.Press action.Play (Some (Num 1)) true] =
    [action.Press action.Play (Some (Num 1)) true].
Proof.
  refine (fromMidi_action_justified (only_control empty_mapping (play_binding []))
            (note_on 0x7F) [action.Press action.Play (Some (Num 1)) true]
            (action.Press action.Play (Some (Num 1)) true) _ _).
  - vm_compute. reflexivity.
  - simpl. now left.
Defined.

Lemma fromMidi_reads_bases_only_witness :
  fromMidi (only_control empty_mapping (play_binding ["normal"])) (note_on 0x7F)
  = fromMidi (only_control range_mapping (play_binding [])) (note_on 0x7F).
Proof.
  apply (fromMidi_reads_bases_only
           (only_control empty_mapping (play_binding ["normal"]))
           (only_control range_mapping (play_binding []))
           (note_on 0x7F)).
  reflexivity.
Defined.

Lemma fromMidi_ignores_NaN_binding_witness :
  fromMidi
    (with_controls empty_mapping
       [{| control_base := {| group := "[Channel2]"; key := "play";
                              status := NaN; midino := Num 0x20 |};
           options := [] |};
        play_binding []])
    (note_on 0x7F)
  = fromMidi (with_controls
                (with_controls empty_mapping
                   [{| control_base := {| group := "[Channel2]"; key := "play";
                                          status := NaN; midino := Num 0x20 |};
                       options := [] |};
                    play_binding []])
                ([] ++ [play_binding []]))
      (note_on 0x7F).
Proof.
  apply (fromMidi_ignores_NaN_binding
           (with_controls empty_mapping
              [{| control_base := {| group := "[Channel2]"; key := "play";
                                     status := NaN; midino := Num 0x20 |};
                  options := [] |};
               play_binding []])
           []
           [play_binding []]
           {| control_base := {| group := "[Channel2]"; key := "play";
                                 status := NaN; midino := Num 0x20 |};
              options := [] |}
           (note_on 0x7F)).
  - reflexivity.
  - left. reflexivity.
Defined.

Lemma fromMidi_short_message_witness :
  fromMidi (only_control empty_mapping (play_binding []))
    {| midi.status := Num 0xF8; midi.data := [] |}
  = Throw TypeError.
Proof.
  exact (proj1 (fromMidi_short_message
                  (only_control empty_mapping (play_binding []))
                  (Num 0xF8) (Num 0))).
Defined.

(** ** Deck resolution and number texts *)

Lemma match_here_other_start c s :
  Ascii.eqb c "[" = false -> match_here channel_regex Unset (String c s) = None.
Proof.
  intros Hc. unfold channel_regex. simpl.
  rewrite Ascii.eqb_sym. now rewrite Hc.
Qed.

(** X13: when nothing before it holds an opening bracket, the first
    bracketed [Channel] pattern decides: for every prefix [p] without a
    bracket, non-empty digit string [n] and suffix [t], the deck of
    [p + "[Channel" + n + "]" + t] is the double nearest to the number [n]
    denotes, which is that number itself below 2^53; leading zeros and all
    that follows the closing bracket are of no account. *)
Theorem deckFromGroup_after_plain_prefix :
  forall p n t : string,
    no_bracket p = true -> all_digits n = true -> n <> EmptyString ->
    deckFromGroup (channel_group p n t) = Some (to_double (decimal n)) /\
    (decimal n < 2 ^ 53 ->
     deckFromGroup (channel_group p n t) = Some (Num (decimal n))).
Proof.
  intros p n t Hp Hn Hne. unfold deckFromGroup.
  assert (Hexec : exec channel_regex (channel_group p n t) = Some (Closed n)).
  { induction p as [|c p IH].
    - rewrite exec_unfold. now rewrite channel_regex_complete.
    - simpl in Hp. apply andb_true_iff in Hp as [Hc Hp].
      apply negb_true_iff in Hc.
      change (channel_group (String c p) n t)
        with (String c (channel_group p n t)).
      rewrite exec_unfold, (match_here_other_start _ _ Hc). now apply IH. }
  rewrite Hexec. simpl. rewrite parseInt_decimal by assumption.
  split; [reflexivity|]. intros Hsmall.
  rewrite to_double_exact; [reflexivity|].
  pose proof (decimal_from_nonneg n 0 ltac:(lia) Hn) as Hpos.
  fold (decimal n) in Hpos. lia.
Qed.

Lemma deckFromGroup_after_plain_prefix_witness :
  deckFromGroup "Deck [Channel007] (left)" = Some (Num 7).
Proof.
  refine (proj2 (deckFromGroup_after_plain_prefix "Deck " "007" " (left)"
                   eq_refl eq_refl ltac:(discriminate)) _).
  reflexivity.
Defined.

Lemma hex_digit_radix c d :
  hex_digit c = Some d -> radix_digit 16 c = Some d.
Proof.
  destruct c as [[] [] [] [] [] [] [] []]; intros Hd;
    try discriminate Hd; injection Hd as <-; reflexivity.
Qed.

Lemma hex_digit_nonneg c d : hex_digit c = Some d -> 0 <= d.
Proof.
  destruct c as [[] [] [] [] [] [] [] []]; intros Hd;
    try discriminate Hd; injection Hd as <-; lia.
Qed.

Lemma hex_from_nonneg h a : 0 <= a -> all_hex h = true -> 0 <= hex_from a h.
Proof.
  revert a. induction h as [|c h IH]; intros a Ha Hh; [exact Ha|].
  simpl in Hh. apply andb_true_iff in Hh as [Hc Hh].
  apply bool_decide_eq_true in Hc as [d Hd].
  simpl. rewrite Hd. simpl. apply IH; [|exact Hh].
  pose proof (hex_digit_nonneg c d Hd). lia.
Qed.

Lemma parse_digits_hex h a :
  all_hex h = true -> parse_digits 16 h (Some a) = Some (hex_from a h).
Proof.
  revert a. induction h as [|c h IH]; intros a Hh; [reflexivity|].
  simpl in Hh. apply andb_true_iff in Hh as [Hc Hh].
  apply bool_decide_eq_true in Hc as [d Hd].
  simpl. rewrite (hex_digit_radix c d Hd), Hd. simpl. now apply IH.
Qed.

Lemma parseInt_hexadecimal h :
  all_hex h = true -> h <> EmptyString ->
  parseInt ("0x" +:+ h) = to_double (hexadecimal h) /\
  parseInt ("0X" +:+ h) = to_double (hexadecimal h).
Proof.
  intros Hh Hne. destruct h as [|c h]; [congruence|].
  simpl in Hh. apply andb_true_iff in Hh as [Hc Hh].
  apply bool_decide_eq_true in Hc as [d Hd].
  assert (Hdigits : parse_digits 16 (String c h) None
                    = Some (hexadecimal (String c h))).
  { simpl. rewrite (hex_digit_radix c d Hd). simpl.
    rewrite (parse_digits_hex h _ Hh). unfold hexadecimal. simpl.
    now rewrite Hd. }
  split.
  - change (parseInt ("0x" +:+ String c h))
      with (match parse_digits 16 (String c h) None with
            | Some m => to_double (1 * m)
            | None => NaN
            end).
    rewrite Hdigits. now rewrite Z.mul_1_l.
  - change (parseInt ("0X" +:+ String c h))
      with (match parse_digits 16 (String c h) None with
            | Some m => to_double (1 * m)
            | None => NaN
            end).
    rewrite Hdigits. now rewrite Z.mul_1_l.
Qed.

Lemma radix_digit_not_digit c : is_digit c = false -> radix_digit 10 c = None.
Proof.
  unfold is_digit, radix_digit, digit_value. intros Hc. rewrite Hc.
  destruct ((97 <=? code c) && (code c <=? 122)) eqn:Hlow.
  - apply andb_true_iff in Hlow as [H1 H2]. apply Z.leb_le in H1, H2.
    destruct (Z.ltb_spec (code c - 87) 10); [lia | reflexivity].
  - destruct ((65 <=? code c) && (code c <=? 90)) eqn:Hup; [|reflexivity].
    apply andb_true_iff in Hup as [H1 H2]. apply Z.leb_le in H1, H2.
    destruct (Z.ltb_spec (code c - 55) 10); [lia | reflexivity].
Qed.

Lemma parse_digits_stop n t a :
  all_digits n = true -> ends_number t = true ->
  parse_digits 10 (n +:+ t) (Some a) = Some (decimal_from a n).
Proof.
  revert a. induction n as [|c n IH]; intros a Hn Ht.
  - simpl. destruct t as [|x t]; [reflexivity|]. simpl in Ht.
    apply andb_true_iff in Ht as [Ht _]. apply andb_true_iff in Ht as [Hx _].
    apply negb_true_iff in Hx. simpl.
    now rewrite (radix_digit_not_digit x Hx).
  - simpl in Hn. apply andb_true_iff in Hn as [Hc Hn].
    simpl. rewrite (radix_digit_decimal c Hc). simpl. now apply IH.
Qed.

Lemma strip_prefix_decimal n t :
  all_digits n = true -> n <> EmptyString -> ends_number t = true ->
  strip_prefix (n +:+ t) = (10, n +:+ t).
Proof.
  intros Hn Hne Ht. destruct n as [|c n]; [congruence|].
  simpl in Hn. apply andb_true_iff in Hn as [_ Hn]. simpl.
  assert (Hnext : forall x r, n +:+ t = String x r ->
                              Ascii.eqb x "x" || Ascii.eqb x "X" = false).
  { intros x r Hx. destruct n as [|y n].
    - simpl in Hx. subst t. simpl in Ht.
      apply andb_true_iff in Ht as [Ht HX]. apply andb_true_iff in Ht as [_ Hx].
      apply negb_true_iff in Hx, HX. now rewrite Hx, HX.
    - simpl in Hx. injection Hx as <- _. simpl in Hn.
      apply andb_true_iff in Hn as [Hy _].
      now rewrite (digit_not_char y "x" Hy eq_refl),
                  (digit_not_char y "X" Hy eq_refl). }
  destruct (n +:+ t) as [|x r] eqn:Hrest; [reflexivity|].
  now rewrite (Hnext x r eq_refl), andb_false_r.
Qed.

Lemma parseInt_lenient n t :
  all_digits n = true -> n <> EmptyString -> ends_number t = true ->
  parseInt (n +:+ t) = to_double (decimal n) /\
  parseInt ("+" +:+ n +:+ t) = to_double (decimal n) /\
  parseInt ("-" +:+ n +:+ t) = to_double (- decimal n).
Proof.
  intros Hn Hne Ht.
  assert (Hdigits : parse_digits 10 (n +:+ t) None = Some (decimal n)).
  { destruct n as [|c n]; [congruence|]. simpl in Hn.
    apply andb_true_iff in Hn as [Hc Hn]. simpl.
    rewrite (radix_digit_decimal c Hc). simpl.
    rewrite (parse_digits_stop n t _ Hn Ht). reflexivity. }
  pose proof (strip_prefix_decimal n t Hn Hne Ht) as Hprefix.
  split; [|split].
  - destruct n as [|c n]; [congruence|].
    assert (Hc : is_digit c = true)
      by (simpl in Hn; now apply andb_true_iff in Hn as [Hc _]).
    unfold parseInt.
    change (String c n +:+ t) with (String c (n +:+ t)) in *.
    simpl trimStart. rewrite (digit_not_whitespace c Hc). unfold strip_sign.
    rewrite (digit_not_char c "-" Hc eq_refl), (digit_not_char c "+" Hc eq_refl).
    rewrite Hprefix, Hdigits. f_equal; lia.
  - change (parseInt ("+" +:+ n +:+ t))
      with (let '(R, digits) := strip_prefix (n +:+ t) in
            match parse_digits R digits None with
            | Some m => to_double (1 * m)
            | None => NaN
            end).
    rewrite Hprefix, Hdigits. f_equal; lia.
  - change (parseInt ("-" +:+ n +:+ t))
      with (let '(R, digits) := strip_prefix (n +:+ t) in
            match parse_digits R digits None with
            | Some m => to_double (-1 * m)
            | None => NaN
            end).
    rewrite Hprefix, Hdigits. f_equal; lia.
Qed.

Section NumberTexts.

Context {flattener : Flattener}.

(** X14: [status] and [midino] are read by [parseInt] without a radix, so
    a text that starts with [0x] or [0X] is read in base 16, as the Mixxx
    mappings write their numbers, not in base 10: the binding gets the
    double nearest to the number the hexadecimal digits denote, which is
    that number itself below 2^53. *)
Theorem parseBaseMapping_reads_hexadecimal :
  forall (e : XmlElement) (h : string),
    complete_binding e = true ->
    all_hex h = true -> h <> EmptyString ->
    exists b,
      parseBaseMapping e = Return b /\
      (field e "status" = "0x" +:+ h \/ field e "status" = "0X" +:+ h ->
       status b = to_double (hexadecimal h) /\
       (hexadecimal h < 2 ^ 53 -> status b = Num (hexadecimal h))) /\
      (field e "midino" = "0x" +:+ h \/ field e "midino" = "0X" +:+ h ->
       midino b = to_double (hexadecimal h) /\
       (hexadecimal h < 2 ^ 53 -> midino b = Num (hexadecimal h))).
Proof.
  intros e h Hc Hh Hne. exists (base_of e).
  split; [now apply parseBaseMapping_complete|].
  destruct (parseInt_hexadecimal h Hh Hne) as [Hx HX].
  assert (Hexact : hexadecimal h < 2 ^ 53 ->
                   to_double (hexadecimal h) = Num (hexadecimal h)).
  { intros Hsmall. apply to_double_exact.
    pose proof (hex_from_nonneg h 0 ltac:(lia) Hh) as Hpos.
    fold (hexadecimal h) in Hpos. lia. }
  split; intros [Hf|Hf]; simpl; rewrite Hf;
    (split; [assumption | intros Hsmall; rewrite <- (Hexact Hsmall); assumption]).
Qed.

(** X15: a number is read leniently.  When the [status] or [midino] text
    is a non-empty digit string followed by nothing or by anything that
    starts with neither a digit nor [x], the binding gets the double
    nearest to the number the digits denote (that number itself below
    2^53), the rest being ignored and not rejected; with a leading [-] it
    gets the negative of it. *)
Theorem parseBaseMapping_reads_leniently :
  forall (e : XmlElement) (n t : string),
    complete_binding e = true ->
    all_digits n = true -> n <> EmptyString -> ends_number t = true ->
    exists b,
      parseBaseMapping e = Return b /\
      (field e "status" = n +:+ t -> status b = to_double (decimal n)) /\
      (field e "status" = "-" +:+ n +:+ t ->
       status b = to_double (- decimal n)) /\
      (field e "midino" = n +:+ t -> midino b = to_double (decimal n)) /\
      (field e "midino" = "-" +:+ n +:+ t ->
       midino b = to_double (- decimal n)) /\
      (decimal n < 2 ^ 53 ->
       to_double (decimal n) = Num (decimal n) /\
       to_double (- decimal n) = Num (- decimal n)).
Proof.
  intros e n t Hc Hn Hne Ht. exists (base_of e).
  split; [now apply parseBaseMapping_complete|].
  destruct (parseInt_lenient n t Hn Hne Ht) as (Hplain & _ & Hminus).
  do 4 (split; [intros Hf; simpl; rewrite Hf; assumption|]).
  intros Hsmall.
  pose proof (decimal_from_nonneg n 0 ltac:(lia) Hn) as Hpos.
  fold (decimal n) in Hpos.
  split; apply to_double_exact; lia.
Qed.

End NumberTexts.

Lemma parseBaseMapping_reads_hexadecimal_witness :
  exists b,
    parseBaseMapping
      (binding_element "control" "[Channel1]" "play" "0x9F" "0X20" []) = Return b /\
    status b = Num 159 /\ midino b = Num 32.
Proof.
  destruct (parseBaseMapping_reads_hexadecimal
              (binding_element "control" "[Channel1]" "play" "0x9F" "0X20" [])
              "9F" eq_refl eq_refl ltac:(discriminate)) as (b & Hb & Hs & _).
  destruct (parseBaseMapping_reads_hexadecimal
              (binding_element "control" "[Channel1]" "play" "0x9F" "0X20" [])
              "20" eq_refl eq_refl ltac:(discriminate)) as (b' & Hb' & _ & Hm).
  exists b. split; [exact Hb|]. split.
  - refine (proj2 (Hs _) _); [left; vm_compute; reflexivity | reflexivity].
  - rewrite Hb in Hb'. injection Hb' as <-.
    refine (proj2 (Hm _) _); [right; vm_compute; reflexivity | reflexivity].
Defined.

Lemma parseBaseMapping_reads_leniently_witness :
  exists b,
    parseBaseMapping
      (binding_element "control" "[Channel1]" "play" "144px" "-7.5" []) = Return b /\
    status b = Num 144 /\ midino b = Num (-7).
Proof.
  destruct (parseBaseMapping_reads_leniently
              (binding_element "control" "[Channel1]" "play" "144px" "-7.5" [])
              "144" "px" eq_refl eq_refl ltac:(discriminate) eq_refl)
    as (b & Hb & Hs & _).
  destruct (parseBaseMapping_reads_leniently
              (binding_element "control" "[Channel1]" "play" "144px" "-7.5" [])
              "7" ".5" eq_refl eq_refl ltac:(discriminate) eq_refl)
    as (b' & Hb' & _ & _ & _ & Hm & _).
  exists b. split; [exact Hb|]. split.
  - apply Hs. vm_compute. reflexivity.
  - rewrite Hb in Hb'. injection Hb' as <-. apply Hm. vm_compute. reflexivity.
Defined.

(** ** What the decoder reads of a message *)

Lemma find_selects_ext msg msg' (l : list ControlMapping) :
  (forall c, selects msg c = selects msg' c) ->
  List.find (selects msg) l = List.find (selects msg') l.
Proof.
  intros Hext. induction l as [|c l IH]; [reflexivity|].
  simpl. now rewrite Hext, IH.
Qed.

(** X16: of a message [fromMidi] reads the status, the first data byte
    and whether the second data byte is positive, nothing else: the
    velocity of a note above zero and any byte after the second make no
    difference to the actions. *)
Theorem fromMidi_reads_message_partly :
  forall (this : MixxxControllerMapping) (msg msg' : midi.MidiMessage),
    midi.status msg = midi.status msg' ->
    midi.data msg !! 0%nat = midi.data msg' !! 0%nat ->
    gt_zero (midi.data msg !! 1%nat) = gt_zero (midi.data msg' !! 1%nat) ->
    fromMidi this msg = fromMidi this msg'.
Proof.
  intros this msg msg' Hst Hd1 Hd2. unfold fromMidi.
  rewrite (find_selects_ext msg msg').
  - now rewrite Hd2.
  - intros c. unfold selects. now rewrite Hst, Hd1.
Qed.

Lemma fromMidi_reads_message_partly_witness :
  fromMidi (only_control empty_mapping (play_binding [])) (note_on 0x7F)
  = fromMidi (only_control empty_mapping (play_binding []))
      {| midi.status := Num 0x90; midi.data := [Num 0x20; Num 1; Num 99] |}.
Proof.
  apply (fromMidi_reads_message_partly
           (only_control empty_mapping (play_binding []))
           (note_on 0x7F)
           {| midi.status := Num 0x90;
              midi.data := [Num 0x20; Num 1; Num 99] |});
    reflexivity.
Defined.
